(** * Self-adaptive MQTT publisher: broker registry, score model,
      offline queue and session manager

    A shallow embedding of [broker_list_manager.{h,cpp}], [score_weights.h]
    and [mqtt_manager.{h,cpp}] of the self_adaptive_publisher example.

    Conventions of the embedding:
    - a C++ [double] is an exact rational ([Q]); comparisons and the
      [std::max]/[std::min] selections are written out as the library
      defines them, rounding is not modelled;
    - [int] is [Z], [size_t] is [nat] (the code never decrements it at 0);
    - [std::chrono::steady_clock::now()] is a timestamp handed in by the
      caller;
    - [std::vector<std::shared_ptr<BrokerInfo>>] is a [list BrokerInfo]
      that is rewritten in place where the code mutates through the pointer;
    - mutexes are not modelled: every operation runs to completion. *)

From Stdlib Require Import Ascii String List Bool Arith ZArith QArith Qminmax Lia Lqa.
Import ListNotations.

Local Open Scope nat_scope.

(** ** score_weights.h *)

(** The fields [latency], [bandwidth] and [connection] of the struct carry
    the prefix [w_] here, since [BrokerInfo] has fields of the same names. *)
Record ScoreWeights : Type := mkScoreWeights {
  w_latency : Q;
  w_bandwidth : Q;
  w_connection : Q
}.

Definition CATEGORY_WEIGHTS : list (string * ScoreWeights) :=
  [ ("sensor"%string,    mkScoreWeights (6#10) (2#10) (2#10));
    ("camera"%string,    mkScoreWeights (2#10) (6#10) (2#10));
    ("meter"%string,     mkScoreWeights (6#10) (2#10) (2#10));
    ("light"%string,     mkScoreWeights (6#10) (2#10) (2#10));
    ("appliance"%string, mkScoreWeights (6#10) (2#10) (2#10));
    ("wearable"%string,  mkScoreWeights (3#10) (4#10) (3#10));
    ("beacon"%string,    mkScoreWeights (6#10) (2#10) (2#10));
    ("traffic"%string,   mkScoreWeights (4#10) (2#10) (4#10));
    ("drone"%string,     mkScoreWeights (3#10) (5#10) (2#10));
    ("rfid"%string,      mkScoreWeights (3#10) (2#10) (5#10));
    ("signage"%string,   mkScoreWeights (2#10) (6#10) (2#10)) ].

(** [std::map::count] / [std::map::at] on the table. *)
Fixpoint map_at (tbl : list (string * ScoreWeights)) (k : string)
  : option ScoreWeights :=
  match tbl with
  | [] => None
  | (k', w) :: rest => if String.eqb k' k then Some w else map_at rest k
  end.

Definition sensor_weights : ScoreWeights := mkScoreWeights (6#10) (2#10) (2#10).

(** [CATEGORY_WEIGHTS.count(category_) ? CATEGORY_WEIGHTS.at(category_)
                                       : CATEGORY_WEIGHTS.at("sensor")] *)
Definition category_weights (category : string) : ScoreWeights :=
  match map_at CATEGORY_WEIGHTS category with
  | Some w => w
  | None =>
      match map_at CATEGORY_WEIGHTS "sensor" with
      | Some w => w
      | None => sensor_weights
      end
  end.

(** ** BrokerInfo *)

Definition time_point := nat.

Record BrokerInfo : Type := mkBrokerInfo {
  uri : string;
  latency : Q;
  bandwidth : Q;
  connection_count : Z;
  score : Q;
  is_available : bool;
  last_check : time_point
}.

(** [BrokerInfo::BrokerInfo(broker_uri)] *)
Definition new_BrokerInfo (broker_uri : string) (now : time_point) : BrokerInfo :=
  mkBrokerInfo broker_uri 0 0 0%Z 0 true now.

(** [a < b] on doubles. *)
Definition Qltb (a b : Q) : bool := negb (Qle_bool b a).

(** [std::max(a, b)] is [(a < b) ? b : a]; [std::min(a, b)] is
    [(b < a) ? b : a]. *)
Definition std_max (a b : Q) : Q := if Qltb a b then b else a.
Definition std_min (a b : Q) : Q := if Qltb b a then b else a.

Definition LATENCY_BASELINE : Q := 100.
Definition BANDWIDTH_BASELINE : Q := 1000000.
Definition CONNECTION_BASELINE : Z := 100.

Definition latency_score (b : BrokerInfo) : Q :=
  if Qltb 0 (latency b)
  then std_max 0 (1 - latency b / LATENCY_BASELINE)
  else 0.

Definition bandwidth_score (b : BrokerInfo) : Q :=
  if Qltb 0 (bandwidth b)
  then std_min 1 (bandwidth b / BANDWIDTH_BASELINE)
  else 0.

Definition connection_score (b : BrokerInfo) : Q :=
  if (0 <? connection_count b)%Z
  then std_max 0 (1 - inject_Z (connection_count b) / inject_Z CONNECTION_BASELINE)
  else 0.

Definition set_score (b : BrokerInfo) (s : Q) : BrokerInfo :=
  mkBrokerInfo (uri b) (latency b) (bandwidth b) (connection_count b)
               s (is_available b) (last_check b).

Definition set_available (b : BrokerInfo) (a : bool) : BrokerInfo :=
  mkBrokerInfo (uri b) (latency b) (bandwidth b) (connection_count b)
               (score b) a (last_check b).

(** [BrokerInfo::update_score(weights)] *)
Definition update_score (weights : ScoreWeights) (b : BrokerInfo) : BrokerInfo :=
  let s := (latency_score b * w_latency weights
            + bandwidth_score b * w_bandwidth weights
            + connection_score b * w_connection weights)%Q in
  if is_available b then set_score b s else set_score b 0.

(** ** BrokerListManager *)

Record BrokerListManager : Type := mkBrokerListManager {
  brokers_ : list BrokerInfo;
  current_broker_index_ : nat;
  category_ : string
}.

(** [BrokerListManager::BrokerListManager(category)] *)
Definition new_BrokerListManager (category : string) : BrokerListManager :=
  mkBrokerListManager [] 0 category.

Definition has_uri (u : string) (b : BrokerInfo) : bool := String.eqb (uri b) u.

(** [add_broker]: return early when the URI is registered, else
    [push_back]; the index is reset when the vector now has one element. *)
Definition add_broker (u : string) (now : time_point) (m : BrokerListManager)
  : BrokerListManager :=
  if existsb (has_uri u) (brokers_ m) then m
  else
    let bs := brokers_ m ++ [new_BrokerInfo u now] in
    mkBrokerListManager bs
      (if length bs =? 1 then 0 else current_broker_index_ m)
      (category_ m).

(** [std::find_if] followed by [std::distance]: position of the first
    record with the URI. *)
Fixpoint find_index (u : string) (bs : list BrokerInfo) : option nat :=
  match bs with
  | [] => None
  | b :: rest =>
      if has_uri u b then Some 0
      else match find_index u rest with
           | Some i => Some (S i)
           | None => None
           end
  end.

(** [vector::erase] at a position. *)
Fixpoint erase_at (i : nat) (bs : list BrokerInfo) : list BrokerInfo :=
  match bs, i with
  | [], _ => []
  | _ :: rest, 0 => rest
  | b :: rest, S j => b :: erase_at j rest
  end.

Definition remove_broker (u : string) (m : BrokerListManager) : BrokerListManager :=
  match find_index u (brokers_ m) with
  | None => m
  | Some removed_index =>
      let bs := erase_at removed_index (brokers_ m) in
      let cur := current_broker_index_ m in
      let cur' :=
        if removed_index =? cur then
          match bs with
          | [] => 0
          | _ => if length bs <=? cur then length bs - 1 else cur
          end
        else if removed_index <? cur then cur - 1
        else cur in
      mkBrokerListManager bs cur' (category_ m)
  end.

Definition clear_brokers (m : BrokerListManager) : BrokerListManager :=
  mkBrokerListManager [] 0 (category_ m).

Definition get_broker_uris (m : BrokerListManager) : list string :=
  map uri (brokers_ m).

(** [get_current_broker]: [nullptr] when the vector is empty or the index
    is out of range. *)
Definition get_current_broker (m : BrokerListManager) : option BrokerInfo :=
  nth_error (brokers_ m) (current_broker_index_ m).

Definition get_current_broker_uri (m : BrokerListManager) : string :=
  match get_current_broker m with
  | Some b => uri b
  | None => ""%string
  end.

Definition set_current_broker (u : string) (m : BrokerListManager)
  : BrokerListManager * bool :=
  match find_index u (brokers_ m) with
  | Some i => (mkBrokerListManager (brokers_ m) i (category_ m), true)
  | None => (m, false)
  end.

(** The loop of [find_best_broker_internal]: the pair is
    ([best_broker], [best_score]). *)
Definition best_step (acc : option BrokerInfo * Q) (b : BrokerInfo)
  : option BrokerInfo * Q :=
  if is_available b && Qltb (snd acc) (score b)
  then (Some b, score b)
  else acc.

Definition find_best_broker (m : BrokerListManager) : option BrokerInfo :=
  fst (fold_left best_step (brokers_ m) (None, -(1))).

Definition SWITCH_THRESHOLD : Q := 1 # 10.

Definition should_switch_broker (m : BrokerListManager) : bool :=
  match get_current_broker m, find_best_broker m with
  | Some current_broker, Some best_broker =>
      if negb (String.eqb (uri current_broker) (uri best_broker))
      then Qltb SWITCH_THRESHOLD (score best_broker - score current_broker)
      else false
  | _, _ => false
  end.

(** [for (auto& broker : brokers_) if (broker->uri == uri) { ...; break; }] *)
Fixpoint update_first (u : string) (f : BrokerInfo -> BrokerInfo)
  (bs : list BrokerInfo) : list BrokerInfo :=
  match bs with
  | [] => []
  | b :: rest => if has_uri u b then f b :: rest else b :: update_first u f rest
  end.

Definition with_brokers (m : BrokerListManager) (bs : list BrokerInfo)
  : BrokerListManager :=
  mkBrokerListManager bs (current_broker_index_ m) (category_ m).

Definition update_broker_metrics (u : string) (lat bw : Q) (cc : Z)
  (now : time_point) (m : BrokerListManager) : BrokerListManager :=
  let weights := category_weights (category_ m) in
  with_brokers m
    (update_first u
       (fun b => update_score weights
                   (mkBrokerInfo (uri b) lat bw cc (score b) (is_available b) now))
       (brokers_ m)).

Definition mark_broker_unavailable (u : string) (m : BrokerListManager)
  : BrokerListManager :=
  with_brokers m
    (update_first u (fun b => set_score (set_available b false) 0) (brokers_ m)).

Definition mark_broker_available (u : string) (m : BrokerListManager)
  : BrokerListManager :=
  let weights := category_weights (category_ m) in
  with_brokers m
    (update_first u (fun b => update_score weights (set_available b true))
       (brokers_ m)).

Definition is_broker_available (u : string) (m : BrokerListManager) : bool :=
  match find (has_uri u) (brokers_ m) with
  | Some b => is_available b
  | None => false
  end.

Definition get_all_brokers (m : BrokerListManager) : list BrokerInfo := brokers_ m.

Definition set_category (category : string) (m : BrokerListManager)
  : BrokerListManager :=
  mkBrokerListManager (brokers_ m) (current_broker_index_ m) category.

(** Registry states the public operations can produce. *)
Inductive reachable : BrokerListManager -> Prop :=
| reach_new : forall category, reachable (new_BrokerListManager category)
| reach_add : forall u now m, reachable m -> reachable (add_broker u now m)
| reach_remove : forall u m, reachable m -> reachable (remove_broker u m)
| reach_clear : forall m, reachable m -> reachable (clear_brokers m)
| reach_set_current : forall u m,
    reachable m -> reachable (fst (set_current_broker u m))
| reach_update_metrics : forall u lat bw cc now m,
    reachable m -> reachable (update_broker_metrics u lat bw cc now m)
| reach_mark_unavailable : forall u m,
    reachable m -> reachable (mark_broker_unavailable u m)
| reach_mark_available : forall u m,
    reachable m -> reachable (mark_broker_available u m)
| reach_set_category : forall category m,
    reachable m -> reachable (set_category category m).

(** ** SelfAdaptiveMqttManager *)

Record QueuedMessage : Type := mkQueuedMessage {
  topic : string;
  payload : string;
  qos : Z;
  retained : bool;
  timestamp : time_point
}.

Definition MAX_QUEUE_SIZE : nat := 1000.

(** The arguments of one [client_->publish(topic, payload, qos, retained)]. *)
Definition publish_args : Type := (string * string * Z * bool)%type.

Definition args_of (msg : QueuedMessage) : publish_args :=
  (topic msg, payload msg, qos msg, retained msg).

(** A non-null [mqtt::delivery_token_ptr] is identified with the publish
    it stands for; [None] is [nullptr]. *)
Definition delivery_token : Type := publish_args.

(** What [try_connect_to_broker] can observe of the MQTT client library:
    the [async_client] constructor throws, or the client exists and the
    connect throws or ends with a non-zero return code, or the connect
    ends with return code 0. *)
Inductive connect_result : Type :=
| create_throws
| connect_fails
| connect_succeeds.

(** Results of member functions that dereference [client_]:
    [NullClient] is the dereference of an empty [unique_ptr];
    [OutOfFuel] only marks exhausted recursion fuel of the model. *)
Inductive result (A : Type) : Type :=
| Ret (a : A)
| NullClient
| OutOfFuel.

Arguments Ret {A} a.
Arguments NullClient {A}.
Arguments OutOfFuel {A}.

Definition bind {A B : Type} (r : result A) (k : A -> result B) : result B :=
  match r with
  | Ret a => k a
  | NullClient => NullClient
  | OutOfFuel => OutOfFuel
  end.

Notation "x <- r ;; k" := (bind r (fun x => k))
  (at level 61, r at next level, right associativity).

(** [client_] holds the URI its [async_client] was constructed with.
    [delivered_] is not a member of the class: it is the trace of the
    publishes the MQTT clients accepted, oldest first, each with the URI
    of the accepting client. *)
Record SelfAdaptiveMqttManager : Type := mkManager {
  client_ : option string;
  broker_manager_ : BrokerListManager;
  is_connected_ : bool;
  is_connecting_ : bool;
  message_queue_ : list QueuedMessage;
  current_broker_try_index_ : nat;
  delivered_ : list (string * publish_args)
}.

Definition new_SelfAdaptiveMqttManager (category : string) : SelfAdaptiveMqttManager :=
  mkManager None (new_BrokerListManager category) false false [] 0 [].

Definition set_client (c : option string) (s : SelfAdaptiveMqttManager) :=
  mkManager c (broker_manager_ s) (is_connected_ s) (is_connecting_ s)
            (message_queue_ s) (current_broker_try_index_ s) (delivered_ s).

Definition set_broker_manager (m : BrokerListManager) (s : SelfAdaptiveMqttManager) :=
  mkManager (client_ s) m (is_connected_ s) (is_connecting_ s)
            (message_queue_ s) (current_broker_try_index_ s) (delivered_ s).

Definition set_is_connected (v : bool) (s : SelfAdaptiveMqttManager) :=
  mkManager (client_ s) (broker_manager_ s) v (is_connecting_ s)
            (message_queue_ s) (current_broker_try_index_ s) (delivered_ s).

Definition set_is_connecting (v : bool) (s : SelfAdaptiveMqttManager) :=
  mkManager (client_ s) (broker_manager_ s) (is_connected_ s) v
            (message_queue_ s) (current_broker_try_index_ s) (delivered_ s).

Definition set_message_queue (q : list QueuedMessage) (s : SelfAdaptiveMqttManager) :=
  mkManager (client_ s) (broker_manager_ s) (is_connected_ s) (is_connecting_ s)
            q (current_broker_try_index_ s) (delivered_ s).

Definition set_try_index (i : nat) (s : SelfAdaptiveMqttManager) :=
  mkManager (client_ s) (broker_manager_ s) (is_connected_ s) (is_connecting_ s)
            (message_queue_ s) i (delivered_ s).

Definition set_delivered (d : list (string * publish_args)) (s : SelfAdaptiveMqttManager) :=
  mkManager (client_ s) (broker_manager_ s) (is_connected_ s) (is_connecting_ s)
            (message_queue_ s) (current_broker_try_index_ s) d.

(** [std::queue::pop] on a non-empty queue, and the body of
    [add_message_to_queue] on the queue alone. *)
Definition queue_pop (q : list QueuedMessage) : list QueuedMessage := tl q.

Definition enqueue (msg : QueuedMessage) (q : list QueuedMessage)
  : list QueuedMessage :=
  (if MAX_QUEUE_SIZE <=? length q then queue_pop q else q) ++ [msg].

Definition add_message_to_queue (t p : string) (q : Z) (r : bool)
  (now : time_point) (s : SelfAdaptiveMqttManager) : SelfAdaptiveMqttManager :=
  set_message_queue (enqueue (mkQueuedMessage t p q r now) (message_queue_ s)) s.

Definition clear_message_queue (s : SelfAdaptiveMqttManager) : SelfAdaptiveMqttManager :=
  set_message_queue [] s.

(** A run of [add_message_to_queue] calls, one per message of [msgs], on
    the queue alone. *)
Definition enqueue_all (msgs q : list QueuedMessage) : list QueuedMessage :=
  fold_left (fun q' msg => enqueue msg q') msgs q.

(** The brokers of the registry that are available, by URI, in
    registration order (the loop that fills [broker_uris]). *)
Definition available_uris (m : BrokerListManager) : list string :=
  map uri (filter is_available (get_all_brokers m)).

Section Manager.

(** The MQTT client library, as the manager observes it:
    [mqtt_connect u] is the outcome of constructing a client for [u] and
    connecting it within the deadline; [mqtt_publish trace u a] tells
    whether the client bound to [u] accepts the publish [a] after the
    publishes of [trace] ([false]: it throws [std::exception]). *)
Variable mqtt_connect : string -> connect_result.
Variable mqtt_publish : list (string * publish_args) -> string -> publish_args -> bool.

Definition create_client (broker_uri : string) (s : SelfAdaptiveMqttManager) :=
  set_client (Some broker_uri) s.

Definition destroy_client (s : SelfAdaptiveMqttManager) := set_client None s.

Definition try_connect_to_broker (broker_uri : string) (s : SelfAdaptiveMqttManager)
  : SelfAdaptiveMqttManager * bool :=
  match mqtt_connect broker_uri with
  | create_throws => (s, false)
  | connect_fails => (create_client broker_uri s, false)
  | connect_succeeds => (create_client broker_uri s, true)
  end.

(** The loop of [resend_queued_messages] on the queue and the trace:
    publish the front, [break] when it throws, [pop] otherwise. *)
Fixpoint resend_loop (c : option string) (q : list QueuedMessage)
  (trace : list (string * publish_args))
  : result (list QueuedMessage * list (string * publish_args)) :=
  match q with
  | [] => Ret ([], trace)
  | queued_msg :: rest =>
      match c with
      | None => NullClient
      | Some u =>
          if mqtt_publish trace u (args_of queued_msg)
          then resend_loop c rest (trace ++ [(u, args_of queued_msg)])
          else Ret (q, trace)
      end
  end.

Definition resend_queued_messages (s : SelfAdaptiveMqttManager)
  : result SelfAdaptiveMqttManager :=
  r <- resend_loop (client_ s) (message_queue_ s) (delivered_ s) ;;
  Ret (set_delivered (snd r) (set_message_queue (fst r) s)).

(** What both [connect] and the reconnection paths do after a
    successful [try_connect_to_broker]. *)
Definition connected_to (target_uri : string) (idx : nat) (s : SelfAdaptiveMqttManager)
  : SelfAdaptiveMqttManager :=
  set_try_index idx
    (set_is_connecting false
       (set_is_connected true
          (set_broker_manager
             (fst (set_current_broker target_uri (broker_manager_ s))) s))).

(** The [for] loop of [connect] from position [i] of [broker_uris]. *)
Fixpoint connect_loop (broker_uris : list string) (i : nat)
  (s : SelfAdaptiveMqttManager) : result (SelfAdaptiveMqttManager * bool) :=
  match broker_uris with
  | [] => Ret (set_is_connecting false s, false)
  | target_uri :: rest =>
      let (s1, ok) := try_connect_to_broker target_uri s in
      if ok then
        s2 <- resend_queued_messages (connected_to target_uri i s1) ;;
        Ret (s2, true)
      else
        connect_loop rest (S i)
          (set_broker_manager
             (mark_broker_unavailable target_uri (broker_manager_ s1)) s1)
  end.

Definition connect (s : SelfAdaptiveMqttManager)
  : result (SelfAdaptiveMqttManager * bool) :=
  if is_connected_ s || is_connecting_ s then Ret (s, is_connected_ s)
  else
    let s1 := set_is_connecting true s in
    let broker_uris := available_uris (broker_manager_ s1) in
    match broker_uris with
    | [] => Ret (set_is_connecting false s1, false)
    | _ => connect_loop broker_uris 0 s1
    end.

Definition disconnect (s : SelfAdaptiveMqttManager) : SelfAdaptiveMqttManager :=
  destroy_client (set_is_connecting false (set_is_connected false s)).

Definition is_connected (s : SelfAdaptiveMqttManager) : bool := is_connected_ s.

Definition get_queued_message_count (s : SelfAdaptiveMqttManager) : nat :=
  length (message_queue_ s).

(** [publish(topic, payload, qos, retained)]: the new state and the
    returned token. *)
Definition publish (t p : string) (q : Z) (r : bool) (now : time_point)
  (s : SelfAdaptiveMqttManager)
  : result (SelfAdaptiveMqttManager * option delivery_token) :=
  if negb (is_connected_ s) then
    Ret (add_message_to_queue t p q r now s, None)
  else
    match client_ s with
    | None => NullClient
    | Some u =>
        if mqtt_publish (delivered_ s) u (t, p, q, r)
        then Ret (set_delivered (delivered_ s ++ [(u, (t, p, q, r))]) s,
                  Some (t, p, q, r))
        else Ret (add_message_to_queue t p q r now s, None)
    end.

(** [handle_connection_failure]; the recursion of the source is
    bounded by [fuel]. *)
Fixpoint handle_connection_failure (fuel : nat) (failed_uri : string)
  (s : SelfAdaptiveMqttManager) : result SelfAdaptiveMqttManager :=
  match fuel with
  | 0 => OutOfFuel
  | S fuel' =>
      let s1 := set_broker_manager
                  (mark_broker_unavailable failed_uri (broker_manager_ s)) s in
      let broker_uris := available_uris (broker_manager_ s1) in
      match broker_uris with
      | [] => Ret s1
      | _ =>
          if current_broker_try_index_ s1 <? length broker_uris then
            let next_uri := nth (current_broker_try_index_ s1) broker_uris ""%string in
            let (s2, ok) := try_connect_to_broker next_uri s1 in
            if ok then resend_queued_messages (connected_to next_uri 0 s2)
            else
              handle_connection_failure fuel' next_uri
                (set_try_index (S (current_broker_try_index_ s2)) s2)
          else
            Ret (set_is_connecting false (set_try_index 0 s1))
      end
  end.

(** Enough fuel for any run on the registry of [s]. *)
Definition failure_fuel (s : SelfAdaptiveMqttManager) : nat :=
  S (length (brokers_ (broker_manager_ s))).

Definition switch_to_best_broker (s : SelfAdaptiveMqttManager)
  : result SelfAdaptiveMqttManager :=
  if is_connecting_ s then Ret s
  else
    let s1 := destroy_client (set_is_connecting true s) in
    let broker_uris := available_uris (broker_manager_ s1) in
    match broker_uris with
    | [] => Ret (set_is_connecting false s1)
    | _ =>
        let s2 := if length broker_uris <=? current_broker_try_index_ s1
                  then set_try_index 0 s1 else s1 in
        let target_uri := nth (current_broker_try_index_ s2) broker_uris ""%string in
        let (s3, ok) := try_connect_to_broker target_uri s2 in
        if ok then resend_queued_messages (connected_to target_uri 0 s3)
        else
          s4 <- handle_connection_failure (failure_fuel s3) target_uri
                  (set_try_index (S (current_broker_try_index_ s3)) s3) ;;
          Ret (set_is_connecting false s4)
    end.

Definition on_broker_switch (new_broker_uri : string) (s : SelfAdaptiveMqttManager)
  : result SelfAdaptiveMqttManager :=
  if should_switch_broker (broker_manager_ s) then switch_to_best_broker s
  else Ret s.

(** The [connection_lost] and [connected] callbacks, without the user
    callbacks they forward to. *)
Definition connection_lost (s : SelfAdaptiveMqttManager)
  : result SelfAdaptiveMqttManager :=
  switch_to_best_broker (set_is_connected false s).

Definition connected (s : SelfAdaptiveMqttManager) : SelfAdaptiveMqttManager :=
  set_is_connected true s.

(** What [connect] has done to the registry after the brokers of
    [failed_uris] failed, in that order. *)
Definition mark_all_unavailable (failed_uris : list string) (m : BrokerListManager)
  : BrokerListManager :=
  fold_left (fun m' u => mark_broker_unavailable u m') failed_uris m.

(** The client bound to [u] accepts the messages of [msgs] one after the
    other, starting after the publishes of [trace]. *)
Fixpoint accepts_all (trace : list (string * publish_args)) (u : string)
  (msgs : list QueuedMessage) : Prop :=
  match msgs with
  | [] => True
  | msg :: rest =>
      mqtt_publish trace u (args_of msg) = true
      /\ accepts_all (trace ++ [(u, args_of msg)]) u rest
  end.

(** The trace entries of the messages of [msgs] published through the
    client bound to [u]. *)
Definition trace_of (u : string) (msgs : list QueuedMessage)
  : list (string * publish_args) :=
  map (fun msg => (u, args_of msg)) msgs.

End Manager.

(** ** Concrete brokers and clients for the scenarios *)

(** Every broker accepts the connection. *)
Definition every_broker_connects (u : string) : connect_result := connect_succeeds.

(** Only the broker "B" accepts the connection. *)
Definition only_B_connects (u : string) : connect_result :=
  if String.eqb u "B" then connect_succeeds else connect_fails.

(** No broker accepts the connection. *)
Definition no_broker_connects (u : string) : connect_result := connect_fails.

(** A client that accepts every publish, one that throws on every publish,
    and one that throws from the third publish on. *)
Definition accepts_every_publish (trace : list (string * publish_args))
  (u : string) (a : publish_args) : bool := true.

Definition rejects_every_publish (trace : list (string * publish_args))
  (u : string) (a : publish_args) : bool := false.

Definition accepts_two_publishes (trace : list (string * publish_args))
  (u : string) (a : publish_args) : bool := length trace <? 2.

(** The registry [A, B, C] of the fall-through scenario. *)
Definition registry_ABC : BrokerListManager :=
  add_broker "C" 2 (add_broker "B" 1 (add_broker "A" 0 (new_BrokerListManager "sensor"))).

(** A registry [A, B] in which A is current and poorly measured and B is
    well measured. *)
Definition registry_B_better : BrokerListManager :=
  update_broker_metrics "B" 10 2000000 10%Z 4
    (update_broker_metrics "A" 80 100000 80%Z 3
       (add_broker "B" 1 (add_broker "A" 0 (new_BrokerListManager "sensor")))).

(** The manager after [connect] on the registry [A, B] reached A, and the
    monitor then measured both brokers. *)
Definition connected_to_A_B_better : SelfAdaptiveMqttManager :=
  mkManager (Some "A"%string) registry_B_better true false [] 0 [].

Definition numbered_message (n : nat) : QueuedMessage :=
  mkQueuedMessage "t" "p" 1%Z false n.

(** ** The score model in the words of the specification *)





(** ** Invariants used below *)

Definition weights_ok (w : ScoreWeights) : Prop :=
  (0 <= w_latency w /\ 0 <= w_bandwidth w /\ 0 <= w_connection w
   /\ w_latency w + w_bandwidth w + w_connection w == 1)%Q.

Definition score_invariant (b : BrokerInfo) : Prop :=
  (0 <= score b /\ score b <= 1)%Q
  /\ (is_available b = false -> (score b == 0)%Q).

Definition index_ok (m : BrokerListManager) : Prop :=
  current_broker_index_ m < length (brokers_ m)
  \/ (brokers_ m = [] /\ current_broker_index_ m = 0).

(** ** Further members: set_brokers, the metrics callback, the monitor *)

(** [SelfAdaptiveMqttManager::set_brokers]: [clear_brokers], then one
    [add_broker] per URI; each URI comes with the clock reading of its
    [add_broker] call. *)
Definition set_brokers (broker_uris : list (string * time_point))
  (s : SelfAdaptiveMqttManager) : SelfAdaptiveMqttManager :=
  set_broker_manager
    (fold_left (fun m ut => add_broker (fst ut) (snd ut) m) broker_uris
       (clear_brokers (broker_manager_ s)))
    s.

(** A list of URIs with every repetition of an earlier URI dropped. *)
Fixpoint first_occurrences (uris : list string) : list string :=
  match uris with
  | [] => []
  | u :: rest =>
      u :: filter (fun v => negb (String.eqb v u)) (first_occurrences rest)
  end.

(** The record a lookup by URI finds: the first one with that URI (the
    loops [for (broker : brokers) if (broker->uri == uri) { ... break; }]). *)
Definition find_broker (u : string) (m : BrokerListManager) : option BrokerInfo :=
  find (has_uri u) (get_all_brokers m).

Section Monitor.

Variable mqtt_connect : string -> connect_result.
Variable mqtt_publish : list (string * publish_args) -> string -> publish_args -> bool.

(** [SelfAdaptiveMqttManager::on_metrics_updated], the callback the
    manager registers with its monitor. *)
Definition on_metrics_updated (s : SelfAdaptiveMqttManager)
  : result SelfAdaptiveMqttManager :=
  if should_switch_broker (broker_manager_ s) then
    match find_best_broker (broker_manager_ s) with
    | Some best_broker =>
        on_broker_switch mqtt_connect mqtt_publish (uri best_broker) s
    | None => Ret s
    end
  else Ret s.

(** [BrokerMonitorThread::measure_latency] on the registry of the manager
    that owns the monitor. [outcome] is what [calculate_latency] gave:
    a latency, or [None] when it threw. *)
Definition measure_latency (outcome : option Q) (broker_uri : string)
  (now : time_point) (s : SelfAdaptiveMqttManager)
  : result SelfAdaptiveMqttManager :=
  match outcome with
  | Some measured =>
      match find_broker broker_uri (broker_manager_ s) with
      | Some broker =>
          on_metrics_updated
            (set_broker_manager
               (update_broker_metrics broker_uri measured (bandwidth broker)
                  (connection_count broker) now (broker_manager_ s)) s)
      | None => Ret s
      end
  | None =>
      Ret (set_broker_manager
             (mark_broker_unavailable broker_uri (broker_manager_ s)) s)
  end.

(** [BrokerMonitorThread::measure_bandwidth] *)
Definition measure_bandwidth (outcome : option Q) (broker_uri : string)
  (now : time_point) (s : SelfAdaptiveMqttManager)
  : result SelfAdaptiveMqttManager :=
  match outcome with
  | Some measured =>
      match find_broker broker_uri (broker_manager_ s) with
      | Some broker =>
          on_metrics_updated
            (set_broker_manager
               (update_broker_metrics broker_uri (latency broker) measured
                  (connection_count broker) now (broker_manager_ s)) s)
      | None => Ret s
      end
  | None =>
      Ret (set_broker_manager
             (mark_broker_unavailable broker_uri (broker_manager_ s)) s)
  end.

(** [BrokerMonitorThread::check_connection_count]: a probe that throws
    is logged and nothing else. *)
Definition check_connection_count (outcome : option Z) (broker_uri : string)
  (now : time_point) (s : SelfAdaptiveMqttManager)
  : result SelfAdaptiveMqttManager :=
  match outcome with
  | Some measured =>
      match find_broker broker_uri (broker_manager_ s) with
      | Some broker =>
          on_metrics_updated
            (set_broker_manager
               (update_broker_metrics broker_uri (latency broker)
                  (bandwidth broker) measured now (broker_manager_ s)) s)
      | None => Ret s
      end
  | None => Ret s
  end.

(** What happens to a manager while it runs: the measurements of its
    monitor, the calls of the application and the connection-lost
    callback of the client. *)
Inductive manager_event : Type :=
| ev_latency (outcome : option Q) (broker_uri : string) (now : time_point)
| ev_bandwidth (outcome : option Q) (broker_uri : string) (now : time_point)
| ev_connection_count (outcome : option Z) (broker_uri : string) (now : time_point)
| ev_connect
| ev_disconnect
| ev_publish (t p : string) (q : Z) (r : bool) (now : time_point)
| ev_connection_lost.

Definition run_event (e : manager_event) (s : SelfAdaptiveMqttManager)
  : result SelfAdaptiveMqttManager :=
  match e with
  | ev_latency outcome u now => measure_latency outcome u now s
  | ev_bandwidth outcome u now => measure_bandwidth outcome u now s
  | ev_connection_count outcome u now => check_connection_count outcome u now s
  | ev_connect =>
      r <- connect mqtt_connect mqtt_publish s ;; Ret (fst r)
  | ev_disconnect => Ret (disconnect s)
  | ev_publish t p q r now =>
      r' <- publish mqtt_publish t p q r now s ;; Ret (fst r')
  | ev_connection_lost => connection_lost mqtt_connect mqtt_publish s
  end.

Fixpoint run_events (es : list manager_event) (s : SelfAdaptiveMqttManager)
  : result SelfAdaptiveMqttManager :=
  match es with
  | [] => Ret s
  | e :: rest => s' <- run_event e s ;; run_events rest s'
  end.

End Monitor.

(** The publish call an application makes for a message. *)
Definition publish_event (msg : QueuedMessage) : manager_event :=
  ev_publish (topic msg) (payload msg) (qos msg) (retained msg) (timestamp msg).

(** The value of a result that is known to be one. *)
Definition result_or {A : Type} (r : result A) (default : A) : A :=
  match r with
  | Ret a => a
  | _ => default
  end.

(** The broker "A" accepts the connection, for "X" the connect fails, and
    for every other URI the client cannot even be constructed. *)
Definition only_A_connects_others_throw (u : string) : connect_result :=
  if String.eqb u "A" then connect_succeeds
  else if String.eqb u "X" then connect_fails
  else create_throws.

(** ** topic.cpp *)

(** [std::string::find(ch, pos)]: the first position at or after [pos]
    that holds [ch]; [None] is [npos]. *)
Fixpoint string_find (ch : Ascii.ascii) (s : string) (pos : nat) : option nat :=
  match s with
  | EmptyString => None
  | String a rest =>
      match pos with
      | 0 => if Ascii.eqb a ch then Some 0
             else option_map S (string_find ch rest 0)
      | S pos' => option_map S (string_find ch rest pos')
      end
  end.

(** [std::string::substr(pos, n)], [n = None] standing for [npos]:
    [None] is the [std::out_of_range] thrown when [pos] is beyond the
    size; the count is cut at the end of the string. *)
Definition substr (s : string) (pos : nat) (n : option nat) : option string :=
  if String.length s <? pos then None
  else Some (substring pos
               (match n with
                | Some k => k
                | None => String.length s - pos
                end) s).

(** [std::string::back()] of a non-empty string. *)
Definition string_back (s : string) : option Ascii.ascii :=
  String.get (String.length s - 1) s.

Module topic.

(** The [do ... while (pos != npos)] loop of [topic::split]: [None] when
    [substr] throws or the fuel of the model runs out. *)
Fixpoint split_loop (fuel : nat) (s : string) (startPos : nat) (v : list string)
  : option (list string) :=
  match fuel with
  | 0 => None
  | S fuel' =>
      let pos := string_find "/"%char s startPos in
      let n := match pos with
               | None => None
               | Some p => Some (p - startPos)
               end in
      match substr s startPos n with
      | None => None
      | Some field =>
          match pos with
          | None => Some (v ++ [field])
          | Some p => split_loop fuel' s (p + 1) (v ++ [field])
          end
      end
  end.

(** [topic::split] *)
Definition split (s : string) : option (list string) :=
  match s with
  | EmptyString => Some []
  | _ => split_loop (S (String.length s)) s 0 []
  end.

End topic.

(** The fields of a string around '/', by recursion on the string: what
    [topic::split] is compared with. *)
Fixpoint split_fields (s : string) : list string :=
  match s with
  | EmptyString => [EmptyString]
  | String a rest =>
      if Ascii.eqb a "/"%char then EmptyString :: split_fields rest
      else match split_fields rest with
           | f :: fs => String a f :: fs
           | [] => [String a EmptyString]
           end
  end.

(** [std::variant<string, std::vector<string>>], the member [filter_]. *)
Inductive filter_repr : Type :=
| whole (filter : string)
| by_fields (fields : list string).

Module topic_filter.

(** The static [topic_filter::has_wildcards(filter)]. *)
Definition has_wildcards (filter : string) : bool :=
  match filter with
  | EmptyString => false
  | _ =>
      match string_back filter with
      | Some c =>
          if Ascii.eqb c "#"%char then true
          else match string_find "+"%char filter 0 with
               | Some _ => true
               | None => false
               end
      | None => false
      end
  end.

(** The constructor [topic_filter::topic_filter(filter)]. *)
Definition make (filter : string) : option filter_repr :=
  if has_wildcards filter
  then option_map by_fields (topic.split filter)
  else Some (whole filter).

(** The member [has_wildcards() const]. *)
Definition holds_wildcards (f : filter_repr) : bool :=
  match f with
  | whole _ => false
  | by_fields _ => true
  end.

(** [topic_filter::to_string] *)
Definition to_string (f : filter_repr) : string :=
  match f with
  | whole filter => filter
  | by_fields fields =>
      match fields with
      | [] => EmptyString
      | _ =>
          (fold_left (fun s field => s ++ field ++ "/")
             (removelast fields) EmptyString
           ++ last fields EmptyString)%string
      end
  end.

Section Matching.

(** [topic_filter::is_wildcard(const string&)] is declared in topic.h,
    which is not part of the sources at hand. *)
Variable is_wildcard : string -> bool.

(** The [for] loop of [matches] from index [i]; [None] is an access
    outside a vector. The loop leaves at the latest when [i] reaches [n],
    so [fuel] counts the iterations left. *)
Fixpoint match_loop (fuel : nat) (fields topic_fields : list string) (i : nat)
  : option bool :=
  let n := length fields in
  let nt := length topic_fields in
  if negb (i <? n) then Some true
  else
    match fuel with
    | 0 => None
    | S fuel' =>
        match nth_error fields i with
        | None => None
        | Some fi =>
            if String.eqb fi "#"%string then Some true
            else if (i =? nt) && (i <? n - 1) then
              match nth_error fields (i + 1) with
              | None => None
              | Some fnext => Some (String.eqb fnext "#"%string)
              end
            else if negb (String.eqb fi "+"%string) then
              match nth_error topic_fields i with
              | None => None
              | Some ti =>
                  if negb (String.eqb fi ti) then Some false
                  else match_loop fuel' fields topic_fields (i + 1)
              end
            else match_loop fuel' fields topic_fields (i + 1)
        end
    end.

(** The test
    [is_wildcard(fields[0]) && nt > 0 && topic_fields[0].size() > 0 &&
     topic_fields[0][0] == '$'], evaluated left to right. *)
Definition dollar_topic_with_wildcard (fields topic_fields : list string)
  : option bool :=
  match nth_error fields 0 with
  | None => None
  | Some f0 =>
      if is_wildcard f0 && (0 <? length topic_fields) then
        match nth_error topic_fields 0 with
        | None => None
        | Some t0 =>
            if 0 <? String.length t0 then
              match String.get 0 t0 with
              | None => None
              | Some c => Some (Ascii.eqb c "$"%char)
              end
            else Some false
        end
      else Some false
  end.

(** [topic_filter::matches(topic)] *)
Definition matches (f : filter_repr) (topic_name : string) : option bool :=
  match f with
  | whole filter => Some (String.eqb filter topic_name)
  | by_fields fields =>
      let n := length fields in
      if n =? 0 then Some false
      else
        match topic.split topic_name with
        | None => None
        | Some topic_fields =>
            let nt := length topic_fields in
            let back_is_hash := String.eqb (last fields EmptyString) "#"%string in
            if (nt <? n) && negb ((n =? nt + 1) && back_is_hash) then Some false
            else if (n <? nt) && negb back_is_hash then Some false
            else
              match dollar_topic_with_wildcard fields topic_fields with
              | None => None
              | Some true => Some false
              | Some false => match_loop n fields topic_fields 0
              end
        end
  end.

End Matching.

End topic_filter.

(** Matching of a filter, field by field, as the MQTT specification
    describes it: '+' stands for one level, a final '#' for the rest (also
    for no further level); what [topic_filter::matches] is compared with. *)
Fixpoint mqtt_match (fields topic_fields : list string) : bool :=
  match fields with
  | [] => match topic_fields with [] => true | _ :: _ => false end
  | f :: fields' =>
      if String.eqb f "#"%string && match fields' with [] => true | _ => false end
      then true
      else
        match topic_fields with
        | [] => false
        | t :: topic_fields' =>
            (String.eqb f "+"%string || String.eqb f t)
            && mqtt_match fields' topic_fields'
        end
  end.

(** '#' occurs in the list of fields at most as its last field. *)
Fixpoint hash_only_last (fields : list string) : bool :=
  match fields with
  | [] => true
  | [_] => true
  | f :: fields' => negb (String.eqb f "#"%string) && hash_only_last fields'
  end.

(** What the two length tests before the loop let through. *)
Definition lengths_pass (fields topic_fields : list string) : Prop :=
  (length fields <= length topic_fields
   \/ (length fields = length topic_fields + 1
       /\ last fields EmptyString = "#"%string))
  /\ (length topic_fields <= length fields
      \/ last fields EmptyString = "#"%string).

(** The same two tests as a boolean. *)
Definition lengths_pass_b (fields topic_fields : list string) : bool :=
  let n := length fields in
  let nt := length topic_fields in
  let back_is_hash := String.eqb (last fields EmptyString) "#"%string in
  negb ((nt <? n) && negb ((n =? nt + 1) && back_is_hash))
  && negb ((n <? nt) && negb back_is_hash).

(** The loop of [matches] by recursion on the fields that are left. *)
Fixpoint field_walk (fields topic_fields : list string) : bool :=
  match fields with
  | [] => true
  | f :: fields' =>
      if String.eqb f "#"%string then true
      else
        match topic_fields with
        | [] => false
        | t :: topic_fields' =>
            (String.eqb f "+"%string || String.eqb f t)
            && field_walk fields' topic_fields'
        end
  end.

(** The topic starts with '$'. *)
Definition starts_with_dollar (topic_name : string) : bool :=
  match topic_name with
  | String c _ => Ascii.eqb c "$"%char
  | EmptyString => false
  end.

(** The elements at the first, third, fifth, ... place of a list, and
    those at the second, fourth, ... place. *)
Fixpoint every_other (l : list string) : list string :=
  match l with
  | [] => []
  | [x] => [x]
  | x :: _ :: rest => x :: every_other rest
  end.

Definition skipped_places (l : list string) : list string := every_other (tl l).

(** [topic_filter::is_wildcard] as the MQTT rules have it: the field is
    "+" or "#". *)
Definition wildcard_field (s : string) : bool :=
  (String.eqb s "+" || String.eqb s "#")%string.

(** ** Relations between states used by the invariants *)

(** From [m] to [m']: the registered URIs are the same, in the same order,
    and no broker that was unavailable is available. *)
Definition registry_degrades (m m' : BrokerListManager) : Prop :=
  get_broker_uris m' = get_broker_uris m
  /\ forall v, is_broker_available v m = false ->
               is_broker_available v m' = false.

Definition queue_within_bound (s : SelfAdaptiveMqttManager) : Prop :=
  length (message_queue_ s) <= MAX_QUEUE_SIZE.

Definition keeps_invariants (s s' : SelfAdaptiveMqttManager) : Prop :=
  registry_degrades (broker_manager_ s) (broker_manager_ s')
  /\ (queue_within_bound s -> queue_within_bound s').

(** * Facts about the score model *)

Lemma Qltb_true (a b : Q) : Qltb a b = true <-> (a < b)%Q.
Proof.
  unfold Qltb. rewrite negb_true_iff.
  split; intro H.
  - apply Qnot_le_lt. intro Hle. apply Qle_bool_iff in Hle. congruence.
  - destruct (Qle_bool b a) eqn:E; [|reflexivity].
    apply Qle_bool_iff in E. exfalso. apply (Qlt_not_le _ _ H E).
Qed.

Lemma Qltb_false (a b : Q) : Qltb a b = false <-> (b <= a)%Q.
Proof.
  unfold Qltb. rewrite negb_false_iff. apply Qle_bool_iff.
Qed.

Lemma std_max_0_bounds (x : Q) : (x <= 1 -> 0 <= std_max 0 x /\ std_max 0 x <= 1)%Q.
Proof.
  intro Hx. unfold std_max. destruct (Qltb 0 x) eqn:E.
  - apply Qltb_true in E. split; [apply Qlt_le_weak; exact E | exact Hx].
  - split; [apply Qle_refl | discriminate].
Qed.

Lemma std_min_1_bounds (x : Q) : (0 <= x -> 0 <= std_min 1 x /\ std_min 1 x <= 1)%Q.
Proof.
  intro Hx. unfold std_min. destruct (Qltb x 1) eqn:E.
  - apply Qltb_true in E. split; [exact Hx | apply Qlt_le_weak; exact E].
  - split; [discriminate | apply Qle_refl].
Qed.

Lemma Qdiv_nonneg (x d : Q) : (0 <= x -> 0 < d -> 0 <= x / d)%Q.
Proof.
  intros Hx Hd. apply Qle_shift_div_l; [exact Hd|].
  rewrite Qmult_0_l. exact Hx.
Qed.

Lemma one_minus_div_le_1 (x d : Q) : (0 <= x -> 0 < d -> 1 - x / d <= 1)%Q.
Proof.
  intros Hx Hd. pose proof (Qdiv_nonneg x d Hx Hd) as H.
  set (t := (x / d)%Q) in *. lra.
Qed.

Lemma latency_score_bounds (b : BrokerInfo) :
  (0 <= latency_score b /\ latency_score b <= 1)%Q.
Proof.
  unfold latency_score. destruct (Qltb 0 (latency b)) eqn:E.
  - apply Qltb_true in E. apply std_max_0_bounds.
    apply one_minus_div_le_1; [apply Qlt_le_weak; exact E | reflexivity].
  - split; [apply Qle_refl | discriminate].
Qed.

Lemma bandwidth_score_bounds (b : BrokerInfo) :
  (0 <= bandwidth_score b /\ bandwidth_score b <= 1)%Q.
Proof.
  unfold bandwidth_score. destruct (Qltb 0 (bandwidth b)) eqn:E.
  - apply Qltb_true in E. apply std_min_1_bounds.
    apply Qdiv_nonneg; [apply Qlt_le_weak; exact E | reflexivity].
  - split; [apply Qle_refl | discriminate].
Qed.

Lemma connection_score_bounds (b : BrokerInfo) :
  (0 <= connection_score b /\ connection_score b <= 1)%Q.
Proof.
  unfold connection_score. destruct (0 <? connection_count b)%Z eqn:E.
  - apply Z.ltb_lt in E. apply std_max_0_bounds.
    assert (H : (0 <= inject_Z (connection_count b))%Q).
    { change 0%Q with (inject_Z 0). rewrite <- Zle_Qle. lia. }
    apply one_minus_div_le_1; [exact H | reflexivity].
  - split; [apply Qle_refl | discriminate].
Qed.

Lemma weighted_sum_bounds (w : ScoreWeights) (x y z : Q) :
  weights_ok w ->
  (0 <= x <= 1 -> 0 <= y <= 1 -> 0 <= z <= 1 ->
   0 <= x * w_latency w + y * w_bandwidth w + z * w_connection w <= 1)%Q.
Proof.
  intros (Hl & Hb & Hc & Hsum) [Hx0 Hx1] [Hy0 Hy1] [Hz0 Hz1].
  split.
  - pose proof (Qmult_le_0_compat _ _ Hx0 Hl).
    pose proof (Qmult_le_0_compat _ _ Hy0 Hb).
    pose proof (Qmult_le_0_compat _ _ Hz0 Hc).
    lra.
  - assert (Ha : (x * w_latency w <= w_latency w)%Q).
    { rewrite <- (Qmult_1_l (w_latency w)) at 2.
      apply Qmult_le_compat_r; assumption. }
    assert (Hb' : (y * w_bandwidth w <= w_bandwidth w)%Q).
    { rewrite <- (Qmult_1_l (w_bandwidth w)) at 2.
      apply Qmult_le_compat_r; assumption. }
    assert (Hc' : (z * w_connection w <= w_connection w)%Q).
    { rewrite <- (Qmult_1_l (w_connection w)) at 2.
      apply Qmult_le_compat_r; assumption. }
    lra.
Qed.

Lemma update_score_invariant (w : ScoreWeights) (b : BrokerInfo) :
  weights_ok w -> score_invariant (update_score w b).
Proof.
  intro Hw. unfold update_score, score_invariant.
  destruct (is_available b) eqn:Ha; cbn [score set_score is_available].
  - split.
    + apply weighted_sum_bounds; auto using latency_score_bounds,
        bandwidth_score_bounds, connection_score_bounds.
    + rewrite Ha. discriminate.
  - split; [split; [apply Qle_refl | discriminate] | intros _; reflexivity].
Qed.

Lemma map_at_In (tbl : list (string * ScoreWeights)) (k : string) (w : ScoreWeights) :
  map_at tbl k = Some w -> In w (map snd tbl).
Proof.
  induction tbl as [|[k' w'] tbl IH]; cbn; [discriminate|].
  destruct (String.eqb k' k).
  - intro H. injection H as ->. now left.
  - intro H. right. auto.
Qed.

Lemma category_weights_In (category : string) :
  In (category_weights category) (map snd CATEGORY_WEIGHTS).
Proof.
  unfold category_weights.
  destruct (map_at CATEGORY_WEIGHTS category) as [w|] eqn:E.
  - eapply map_at_In; eassumption.
  - cbn. now left.
Qed.

Lemma table_weights_ok (w : ScoreWeights) :
  In w (map snd CATEGORY_WEIGHTS) -> weights_ok w.
Proof.
  cbn. intro H.
  repeat (destruct H as [<- | H]; [unfold weights_ok; cbn; repeat split; lra|]).
  contradiction.
Qed.

Lemma category_weights_ok (category : string) :
  weights_ok (category_weights category).
Proof. apply table_weights_ok, category_weights_In. Qed.







(** Scenario 5 of the specification, run on the code. *)
Example category_weights_scenario :
  (score (update_score (category_weights "camera")
            (mkBrokerInfo "b" 50 500000 50%Z 0 true 0%nat)) == 1 # 2)%Q
  /\ (score (update_score (category_weights "sensor")
               (mkBrokerInfo "b" 50 500000 50%Z 0 true 0%nat)) == 1 # 2)%Q
  /\ (score (update_score (category_weights "camera")
               (mkBrokerInfo "b" 10 2000000 10%Z 0 true 0%nat)) == 96 # 100)%Q.
Proof. repeat split. Qed.


(** * Facts about the registry *)

Lemma update_first_length (u : string) (f : BrokerInfo -> BrokerInfo)
  (bs : list BrokerInfo) : length (update_first u f bs) = length bs.
Proof.
  induction bs as [|b bs IH]; cbn; [reflexivity|].
  destruct (has_uri u b); cbn; congruence.
Qed.

Lemma update_first_Forall (P : BrokerInfo -> Prop) (u : string)
  (f : BrokerInfo -> BrokerInfo) (bs : list BrokerInfo) :
  (forall b, P (f b)) -> Forall P bs -> Forall P (update_first u f bs).
Proof.
  intros Hf. induction 1 as [|b bs Hb Hbs IH]; cbn; [constructor|].
  destruct (has_uri u b); constructor; auto.
Qed.

Lemma erase_at_Forall (P : BrokerInfo -> Prop) (i : nat) (bs : list BrokerInfo) :
  Forall P bs -> Forall P (erase_at i bs).
Proof.
  intro H. revert i. induction H as [|b bs Hb Hbs IH]; intros [|i]; cbn;
    try constructor; auto.
Qed.

Lemma find_index_lt (u : string) (bs : list BrokerInfo) (i : nat) :
  find_index u bs = Some i -> i < length bs.
Proof.
  revert i. induction bs as [|b bs IH]; cbn; intros i; [discriminate|].
  destruct (has_uri u b).
  - intro H. injection H as <-. lia.
  - destruct (find_index u bs) as [j|]; [|discriminate].
    intro H. injection H as <-. specialize (IH j eq_refl). lia.
Qed.

Lemma erase_at_length (i : nat) (bs : list BrokerInfo) :
  i < length bs -> length (erase_at i bs) = length bs - 1.
Proof.
  revert i. induction bs as [|b bs IH]; intros [|i]; cbn; try lia.
  intro H. rewrite IH by lia. lia.
Qed.

Lemma find_index_app_new (u : string) (bs : list BrokerInfo) (b : BrokerInfo) :
  existsb (has_uri u) bs = false -> has_uri u b = true ->
  find_index u (bs ++ [b]) = Some (length bs).
Proof.
  intros Hn Hb. induction bs as [|x bs IH]; cbn in *.
  - now rewrite Hb.
  - apply orb_false_iff in Hn as [Hx Hn]. rewrite Hx, (IH Hn). reflexivity.
Qed.

Lemma erase_at_last (bs : list BrokerInfo) (b : BrokerInfo) :
  erase_at (length bs) (bs ++ [b]) = bs.
Proof. induction bs as [|x bs IH]; cbn; congruence. Qed.

Lemma reachable_index_ok (m : BrokerListManager) : reachable m -> index_ok m.
Proof.
  unfold index_ok.
  induction 1 as [c | u now m Hm IH | u m Hm IH | m Hm IH | u m Hm IH
                 | u lat bw cc now m Hm IH | u m Hm IH | u m Hm IH | c m Hm IH];
    cbn.
  - right. auto.
  - unfold add_broker. destruct (existsb (has_uri u) (brokers_ m)); [exact IH|].
    cbn. left. rewrite length_app. cbn.
    destruct IH as [IH | [E1 E2]].
    + destruct (length (brokers_ m)) eqn:El; [lia|].
      replace (S n + 1 =? 1) with false by (symmetry; apply Nat.eqb_neq; lia).
      lia.
    + rewrite E1. cbn. lia.
  - unfold remove_broker.
    destruct (find_index u (brokers_ m)) as [i|] eqn:Ei; [|exact IH].
    pose proof (find_index_lt _ _ _ Ei) as Hi.
    pose proof (erase_at_length _ _ Hi) as Hl.
    cbn [brokers_ current_broker_index_].
    destruct IH as [IH | [E1 E2]]; [|rewrite E1 in Hi; cbn in Hi; lia].
    destruct (i =? current_broker_index_ m) eqn:E1.
    + destruct (erase_at i (brokers_ m)) as [|x xs] eqn:Ee; [right; auto|].
      left. rewrite Hl. cbn in Hl.
      destruct (_ <=? _) eqn:E2.
      * lia.
      * apply Nat.leb_gt in E2. exact E2.
    + apply Nat.eqb_neq in E1. left. rewrite Hl.
      destruct (i <? current_broker_index_ m) eqn:E2.
      * apply Nat.ltb_lt in E2. lia.
      * apply Nat.ltb_ge in E2. lia.
  - right. auto.
  - unfold set_current_broker.
    destruct (find_index u (brokers_ m)) as [i|] eqn:Ei; cbn; [|exact IH].
    left. eapply find_index_lt; eassumption.
  - rewrite update_first_length.
    destruct IH as [IH | [E1 E2]]; [left; exact IH | right].
    rewrite E1. auto.
  - rewrite update_first_length.
    destruct IH as [IH | [E1 E2]]; [left; exact IH | right].
    rewrite E1. auto.
  - rewrite update_first_length.
    destruct IH as [IH | [E1 E2]]; [left; exact IH | right].
    rewrite E1. auto.
  - exact IH.
Qed.

Lemma reachable_scores (m : BrokerListManager) :
  reachable m -> Forall score_invariant (brokers_ m).
Proof.
  induction 1 as [c | u now m Hm IH | u m Hm IH | m Hm IH | u m Hm IH
                 | u lat bw cc now m Hm IH | u m Hm IH | u m Hm IH | c m Hm IH];
    cbn -[update_score category_weights].
  - constructor.
  - unfold add_broker. destruct (existsb (has_uri u) (brokers_ m)); [exact IH|].
    cbn. apply Forall_app. split; [exact IH|].
    constructor; [|constructor].
    unfold score_invariant; cbn. repeat split; try discriminate.
  - unfold remove_broker.
    destruct (find_index u (brokers_ m)); [|exact IH].
    cbn. apply erase_at_Forall, IH.
  - constructor.
  - unfold set_current_broker.
    destruct (find_index u (brokers_ m)); exact IH.
  - apply update_first_Forall; [|exact IH].
    intro b. apply update_score_invariant, category_weights_ok.
  - apply update_first_Forall; [|exact IH].
    intro b. unfold score_invariant; cbn.
    repeat split; try discriminate.
  - apply update_first_Forall; [|exact IH].
    intro b. apply update_score_invariant, category_weights_ok.
  - exact IH.
Qed.

(** C8. In every registry state the operations can produce (construction,
    add, remove, clear, set_current, update_metrics, mark_unavailable,
    mark_available, set_category), every broker record has a score between
    0 and 1, and score 0 when it is not available. *)
Theorem registry_score_invariant (m : BrokerListManager) (b : BrokerInfo) :
  reachable m -> In b (brokers_ m) ->
  (0 <= score b)%Q /\ (score b <= 1)%Q
  /\ (is_available b = false -> (score b == 0)%Q).
Proof.
  intros Hm Hb.
  pose proof (reachable_scores m Hm) as HF.
  rewrite Forall_forall in HF. destruct (HF b Hb) as [[H0 H1] Hz]. auto.
Qed.

Lemma registry_score_invariant_witness :
  let m := mark_broker_unavailable "b"
             (update_broker_metrics "a" 10 2000000 10%Z 5
                (add_broker "b" 1 (add_broker "a" 0 (new_BrokerListManager "camera")))) in
  let b := mkBrokerInfo "b" 0 0 0%Z 0 false 1 in
  reachable m /\ In b (brokers_ m)
  /\ (0 <= score b)%Q /\ (score b <= 1)%Q
  /\ (is_available b = false -> (score b == 0)%Q).
Proof.
  intros m b.
  assert (Hm : reachable m) by (repeat constructor).
  assert (Hb : In b (brokers_ m)) by (cbn; right; left; reflexivity).
  split; [exact Hm|]. split; [exact Hb|].
  exact (registry_score_invariant m b Hm Hb).
Defined.

Lemma not_registered_existsb (u : string) (bs : list BrokerInfo) :
  ~ In u (map uri bs) -> existsb (has_uri u) bs = false.
Proof.
  induction bs as [|b bs IH]; cbn; [reflexivity|].
  intro H. apply orb_false_iff. split.
  - unfold has_uri. apply String.eqb_neq. intro E. apply H. now left.
  - apply IH. intro Hin. apply H. now right.
Qed.

(** C9, as amended. In every registry state the operations can produce,
    and for every URI [u] that is not registered in it, [add_broker u]
    followed by [remove_broker u] gives back the same registry: the same
    records in the same order and the same current index. *)
Theorem add_then_remove_unregistered (m : BrokerListManager) (u : string)
  (now : time_point) :
  reachable m -> ~ In u (get_broker_uris m) ->
  remove_broker u (add_broker u now m) = m.
Proof.
  intros Hm Hu.
  pose proof (reachable_index_ok m Hm) as Hidx. unfold index_ok in Hidx.
  apply not_registered_existsb in Hu.
  unfold add_broker. rewrite Hu.
  unfold remove_broker. cbn [brokers_ current_broker_index_ category_].
  rewrite (find_index_app_new u (brokers_ m) (new_BrokerInfo u now) Hu)
    by (unfold has_uri; cbn; apply String.eqb_refl).
  rewrite erase_at_last, length_app. cbn [length].
  destruct m as [bs cur cat]. cbn [brokers_ current_broker_index_ category_] in *.
  destruct Hidx as [Hlt | [-> ->]].
  - destruct bs as [|b bs]; [cbn in Hlt; lia|].
    replace (length (b :: bs) + 1 =? 1) with false
      by (symmetry; apply Nat.eqb_neq; cbn; lia).
    replace (length (b :: bs) =? cur) with false
      by (symmetry; apply Nat.eqb_neq; lia).
    replace (length (b :: bs) <? cur) with false
      by (symmetry; apply Nat.ltb_ge; lia).
    reflexivity.
  - reflexivity.
Qed.

Lemma add_then_remove_unregistered_witness :
  let m := add_broker "b" 1 (add_broker "a" 0 (new_BrokerListManager "sensor")) in
  reachable m /\ ~ In "c"%string (get_broker_uris m)
  /\ remove_broker "c" (add_broker "c" 2 m) = m.
Proof.
  intro m.
  assert (Hm : reachable m) by (repeat constructor).
  assert (Hu : ~ In "c"%string (get_broker_uris m)).
  { cbn. intros [H | [H | []]]; discriminate H. }
  split; [exact Hm|]. split; [exact Hu|].
  exact (add_then_remove_unregistered m "c"%string 2 Hm Hu).
Defined.

(** C9, as stated, fails: when [u] is already registered, [add_broker u]
    does nothing and [remove_broker u] then deletes the record. *)
Lemma add_then_remove_registered_changes :
  let m := add_broker "a" 0 (new_BrokerListManager "sensor") in
  reachable m
  /\ brokers_ (remove_broker "a" (add_broker "a" 1 m)) = []
  /\ remove_broker "a" (add_broker "a" 1 m) <> m.
Proof.
  intro m. split; [repeat constructor|]. split; [reflexivity|].
  intro H. apply (f_equal brokers_) in H. discriminate H.
Qed.

(** The loop of [find_best_broker_internal]. *)

Lemma best_fold_keeps_some (bs : list BrokerInfo) (x : BrokerInfo) (q : Q) :
  exists y, fst (fold_left best_step bs (Some x, q)) = Some y.
Proof.
  revert x q. induction bs as [|b bs IH]; intros x q; cbn.
  - eauto.
  - unfold best_step at 2. cbn [snd].
    destruct (is_available b && Qltb q (score b)); apply IH.
Qed.

Lemma best_fold_finds (bs : list BrokerInfo) (o : option BrokerInfo) (q : Q) :
  (exists b, In b bs /\ is_available b = true /\ (q < score b)%Q) ->
  exists y, fst (fold_left best_step bs (o, q)) = Some y.
Proof.
  revert o q. induction bs as [|b bs IH]; intros o q (x & Hin & Ha & Hq).
  - destruct Hin.
  - cbn. unfold best_step at 2. cbn [snd].
    destruct (is_available b && Qltb q (score b)) eqn:E.
    + apply best_fold_keeps_some.
    + apply IH. exists x. destruct Hin as [-> | Hin]; [|auto].
      apply Qltb_true in Hq. rewrite Ha, Hq in E. discriminate E.
Qed.

Lemma best_fold_result (bs : list BrokerInfo) (o : option BrokerInfo) (q : Q)
  (y : BrokerInfo) :
  fst (fold_left best_step bs (o, q)) = Some y ->
  o = Some y \/ (In y bs /\ is_available y = true).
Proof.
  revert o q. induction bs as [|b bs IH]; intros o q; cbn.
  - auto.
  - unfold best_step at 2. cbn [snd].
    destruct (is_available b && Qltb q (score b)) eqn:E; intro H.
    + apply IH in H as [H | [H1 H2]]; [|auto].
      injection H as <-. apply andb_true_iff in E as [E _]. auto.
    + apply IH in H as [H | [H1 H2]]; auto.
Qed.

(** C10. In every registry state the operations can produce, if some
    registered broker is available then [find_best_broker] returns a
    record, and that record is a registered, available broker, whatever the
    scores are (the search starts below every score, at -1); a broker that
    was just added to an empty registry and never measured (score 0,
    available) is returned as the best one. *)
Theorem find_best_broker_some_when_available (m : BrokerListManager) :
  (reachable m ->
   (exists b, In b (brokers_ m) /\ is_available b = true) ->
   exists best, find_best_broker m = Some best
                /\ In best (brokers_ m) /\ is_available best = true)
  /\ (forall u now category,
        score (new_BrokerInfo u now) = 0%Q
        /\ is_available (new_BrokerInfo u now) = true
        /\ find_best_broker (add_broker u now (new_BrokerListManager category))
           = Some (new_BrokerInfo u now)).
Proof.
  split.
  - intros Hm (b & Hin & Ha).
    pose proof (reachable_scores m Hm) as HF. rewrite Forall_forall in HF.
    destruct (HF b Hin) as [[H0 _] _].
    assert (Hex : exists y, find_best_broker m = Some y).
    { apply best_fold_finds. exists b. repeat split; auto.
      apply Qlt_le_trans with 0%Q; [reflexivity | exact H0]. }
    destruct Hex as [y Hy]. exists y. split; [exact Hy|].
    apply best_fold_result in Hy as [Hy | Hy]; [discriminate Hy | exact Hy].
  - intros u now category. repeat split.
Qed.

Lemma find_best_broker_some_when_available_witness :
  let m := mark_broker_unavailable "a"
             (add_broker "b" 1 (add_broker "a" 0 (new_BrokerListManager "sensor"))) in
  reachable m
  /\ (exists b, In b (brokers_ m) /\ is_available b = true)
  /\ (exists best, find_best_broker m = Some best
                   /\ In best (brokers_ m) /\ is_available best = true).
Proof.
  intro m.
  assert (Hm : reachable m) by (repeat constructor).
  assert (Hex : exists b, In b (brokers_ m) /\ is_available b = true).
  { exists (new_BrokerInfo "b" 1). split; [cbn; right; left|]; reflexivity. }
  split; [exact Hm|]. split; [exact Hex|].
  exact (proj1 (find_best_broker_some_when_available m) Hm Hex).
Defined.


(** Scenario 3 of the specification (hysteresis): a lead of 0.08 does not
    trigger a switch, a lead of 0.12 does. *)
Example hysteresis_scenario :
  let reg best_score :=
    mkBrokerListManager
      [ mkBrokerInfo "B" 0 0 0%Z (70 # 100) true 0;
        mkBrokerInfo "C" 0 0 0%Z best_score true 0 ] 0 "sensor" in
  should_switch_broker (reg (78 # 100)) = false
  /\ should_switch_broker (reg (82 # 100)) = true.
Proof. split; reflexivity. Qed.


(** * Facts about the offline queue *)

Lemma MAX_QUEUE_SIZE_pos : 0 < MAX_QUEUE_SIZE.
Proof. apply Nat.lt_0_succ. Qed.

Lemma queue_pop_length (q : list QueuedMessage) :
  length (queue_pop q) = length q - 1.
Proof. destruct q; cbn; lia. Qed.

Lemma enqueue_full (msg : QueuedMessage) (q : list QueuedMessage) :
  MAX_QUEUE_SIZE <= length q -> enqueue msg q = queue_pop q ++ [msg].
Proof.
  intro H. unfold enqueue. apply Nat.leb_le in H. rewrite H. reflexivity.
Qed.

Lemma enqueue_not_full (msg : QueuedMessage) (q : list QueuedMessage) :
  length q < MAX_QUEUE_SIZE -> enqueue msg q = q ++ [msg].
Proof.
  intro H. unfold enqueue. apply Nat.leb_gt in H. rewrite H. reflexivity.
Qed.

Lemma enqueue_bounded (msg : QueuedMessage) (q : list QueuedMessage) :
  length q <= MAX_QUEUE_SIZE -> length (enqueue msg q) <= MAX_QUEUE_SIZE.
Proof.
  intro H. pose proof MAX_QUEUE_SIZE_pos as Hpos.
  destruct (Nat.lt_ge_cases (length q) MAX_QUEUE_SIZE) as [Hlt | Hge].
  - rewrite (enqueue_not_full msg q Hlt), length_app. cbn [length]. lia.
  - rewrite (enqueue_full msg q Hge), length_app, queue_pop_length. cbn [length]. lia.
Qed.

Lemma enqueue_all_skipn (msgs q : list QueuedMessage) :
  length q <= MAX_QUEUE_SIZE ->
  enqueue_all msgs q
  = skipn (length (q ++ msgs) - MAX_QUEUE_SIZE) (q ++ msgs).
Proof.
  revert q. induction msgs as [|msg msgs IH]; intros q Hq.
  - cbn. rewrite app_nil_r.
    replace (length q - MAX_QUEUE_SIZE) with 0 by lia. reflexivity.
  - change (enqueue_all (msg :: msgs) q) with (enqueue_all msgs (enqueue msg q)).
    rewrite (IH _ (enqueue_bounded msg q Hq)).
    destruct (Nat.lt_ge_cases (length q) MAX_QUEUE_SIZE) as [Hlt | Hge].
    + rewrite (enqueue_not_full msg q Hlt), <- app_assoc. reflexivity.
    + rewrite (enqueue_full msg q Hge), <- app_assoc. cbn [app].
      pose proof MAX_QUEUE_SIZE_pos as Hpos.
      destruct q as [|x t]; [cbn in Hge; lia|].
      cbn [queue_pop tl app length] in *.
      assert (Hlen : MAX_QUEUE_SIZE <= length (t ++ msg :: msgs)).
      { rewrite length_app. cbn [length]. lia. }
      replace (S (length (t ++ msg :: msgs)) - MAX_QUEUE_SIZE)
        with (S (length (t ++ msg :: msgs) - MAX_QUEUE_SIZE)) by lia.
      reflexivity.
Qed.

(** C5. Starting from the empty queue, any run of enqueue operations
    leaves at most 1000 entries; [add_message_to_queue] is one such
    operation; an enqueue on a queue of 1000 entries removes exactly the
    front entry and appends the new one; and enqueuing 1001 messages
    numbered 1..1001 into the empty queue leaves the messages 2..1001 in
    order. *)
Theorem offline_queue_bounded_drop_oldest :
  MAX_QUEUE_SIZE = 1000
  /\ (forall msgs, length (enqueue_all msgs []) <= 1000)
  /\ (forall t p q r now s,
        message_queue_ (add_message_to_queue t p q r now s)
        = enqueue (mkQueuedMessage t p q r now) (message_queue_ s))
  /\ (forall msg q, length q = 1000 -> enqueue msg q = tl q ++ [msg])
  /\ (forall numbered : nat -> QueuedMessage,
        enqueue_all (map numbered (seq 1 1001)) [] = map numbered (seq 2 1000)).
Proof.
  split; [reflexivity|].
  split; [|split; [reflexivity|split]].
  - intro msgs. change 1000 with MAX_QUEUE_SIZE.
    assert (H : forall q, length q <= MAX_QUEUE_SIZE ->
                          length (enqueue_all msgs q) <= MAX_QUEUE_SIZE).
    { induction msgs as [|msg msgs IH]; intros q Hq; [exact Hq|].
      apply (IH (enqueue msg q)), enqueue_bounded, Hq. }
    apply H. cbn. lia.
  - intros msg q Hq. apply enqueue_full. rewrite Hq. apply Nat.le_refl.
  - intro numbered.
    rewrite enqueue_all_skipn by (cbn [length]; lia).
    cbn [app]. rewrite length_map, length_seq.
    replace (1001 - MAX_QUEUE_SIZE) with 1 by reflexivity.
    reflexivity.
Qed.

Lemma offline_queue_bounded_drop_oldest_witness :
  let msg n := mkQueuedMessage "t" "p" 1%Z false n in
  let q := map msg (seq 1 1000) in
  length q = 1000 /\ enqueue (msg 1001) q = tl q ++ [msg 1001].
Proof.
  intros msg q.
  assert (Hq : length q = 1000) by (unfold q; rewrite length_map; apply length_seq).
  split; [exact Hq|].
  exact (proj1 (proj2 (proj2 (proj2 offline_queue_bounded_drop_oldest)))
           (msg 1001) q Hq).
Defined.

(** * Facts about the session manager *)

Section ManagerFacts.

Variable mqtt_connect : string -> connect_result.
Variable mqtt_publish : list (string * publish_args) -> string -> publish_args -> bool.

Lemma resend_loop_split (u : string) (q : list QueuedMessage)
  (trace : list (string * publish_args)) :
  exists sent rest,
    q = sent ++ rest
    /\ resend_loop mqtt_publish (Some u) q trace
       = Ret (rest, trace ++ trace_of u sent)
    /\ accepts_all mqtt_publish trace u sent
    /\ (rest = []
        \/ exists msg, hd_error rest = Some msg
             /\ mqtt_publish (trace ++ trace_of u sent) u (args_of msg) = false).
Proof.
  revert trace. induction q as [|msg q IH]; intro trace.
  - exists [], []. cbn. rewrite app_nil_r. auto.
  - cbn [resend_loop].
    destruct (mqtt_publish trace u (args_of msg)) eqn:E.
    + destruct (IH (trace ++ [(u, args_of msg)]))
        as (sent & rest & Hq & Hrun & Hacc & Hrest).
      exists (msg :: sent), rest.
      cbn [trace_of map accepts_all app].
      change (map (fun m => (u, args_of m)) sent) with (trace_of u sent).
      rewrite <- app_assoc in Hrun, Hrest. cbn [app] in Hrun, Hrest.
      repeat split; auto. now rewrite Hq.
    + exists [], (msg :: q). cbn. rewrite app_nil_r.
      repeat split; auto. right. exists msg. auto.
Qed.

(** C6. With a client in place, [resend_queued_messages] splits the
    queue into a front part and the rest: the messages of the front part
    are handed to the client one after the other in queue order, each one
    accepted, and they are the only ones removed; the rest stays in the
    queue in its order, and it is either empty or starts with the message
    whose publish threw, after which nothing more was published. Nothing
    else of the manager changes. *)
Theorem resend_queued_messages_fifo (s : SelfAdaptiveMqttManager) (u : string) :
  client_ s = Some u ->
  exists sent rest s',
    message_queue_ s = sent ++ rest
    /\ resend_queued_messages mqtt_publish s = Ret s'
    /\ message_queue_ s' = rest
    /\ delivered_ s' = delivered_ s ++ trace_of u sent
    /\ accepts_all mqtt_publish (delivered_ s) u sent
    /\ (rest = []
        \/ exists failed, hd_error rest = Some failed
             /\ mqtt_publish (delivered_ s') u (args_of failed) = false)
    /\ s' = set_delivered (delivered_ s') (set_message_queue rest s).
Proof.
  intro Hc.
  destruct (resend_loop_split u (message_queue_ s) (delivered_ s))
    as (sent & rest & Hq & Hrun & Hacc & Hrest).
  exists sent, rest,
    (set_delivered (delivered_ s ++ trace_of u sent) (set_message_queue rest s)).
  unfold resend_queued_messages. rewrite Hc, Hrun. cbn.
  repeat split; auto.
Qed.

(** C7. [publish] on a disconnected manager, and [publish] on a connected
    manager whose client throws, both put the message into the offline
    queue as its last entry (through [add_message_to_queue]) and return no
    token; the disconnected case hands nothing to a client and ends
    normally. *)
Theorem publish_queues_when_disconnected_or_failed
  (t p : string) (q : Z) (r : bool) (now : time_point)
  (s : SelfAdaptiveMqttManager) :
  let queued := add_message_to_queue t p q r now s in
  (is_connected_ s = false ->
   publish mqtt_publish t p q r now s = Ret (queued, None))
  /\ (forall u, is_connected_ s = true -> client_ s = Some u ->
        mqtt_publish (delivered_ s) u (t, p, q, r) = false ->
        publish mqtt_publish t p q r now s = Ret (queued, None))
  /\ (exists older,
        message_queue_ queued = older ++ [mkQueuedMessage t p q r now])
  /\ delivered_ queued = delivered_ s.
Proof.
  cbn zeta. unfold publish. repeat split.
  - intros ->. reflexivity.
  - intros u -> -> ->. reflexivity.
  - unfold add_message_to_queue, enqueue. cbn [message_queue_ set_message_queue].
    eauto.
Qed.

End ManagerFacts.

Lemma update_first_uris (u : string) (f : BrokerInfo -> BrokerInfo)
  (bs : list BrokerInfo) :
  (forall b, uri (f b) = uri b) ->
  map uri (update_first u f bs) = map uri bs.
Proof.
  intro Hf. induction bs as [|b bs IH]; cbn; [reflexivity|].
  destruct (has_uri u b); cbn; [rewrite Hf | rewrite IH]; reflexivity.
Qed.

Lemma mark_broker_unavailable_uris (u : string) (m : BrokerListManager) :
  get_broker_uris (mark_broker_unavailable u m) = get_broker_uris m.
Proof. apply update_first_uris. reflexivity. Qed.



Lemma find_index_registered (u : string) (bs : list BrokerInfo) :
  In u (map uri bs) ->
  exists i b, find_index u bs = Some i /\ nth_error bs i = Some b /\ uri b = u.
Proof.
  induction bs as [|x bs IH]; cbn; [intros []|].
  intro H. destruct (has_uri u x) eqn:E.
  - exists 0, x. unfold has_uri in E. apply String.eqb_eq in E. auto.
  - destruct H as [H | H].
    + unfold has_uri in E. rewrite H, String.eqb_refl in E. discriminate E.
    + destruct (IH H) as (i & b & Hi & Hn & Hu).
      exists (S i), b. rewrite Hi. auto.
Qed.



Lemma mark_unavailable_keeps (u v : string) (m : BrokerListManager) :
  is_broker_available v m = false ->
  is_broker_available v (mark_broker_unavailable u m) = false.
Proof.
  unfold is_broker_available, mark_broker_unavailable. cbn.
  induction (brokers_ m) as [|b bs IH]; cbn; [auto|].
  destruct (has_uri u b) eqn:Eu; cbn.
  - unfold has_uri at 1. cbn. fold (has_uri v b).
    destruct (has_uri v b); auto.
  - destruct (has_uri v b); auto.
Qed.


Section ConnectFacts.

Variable mqtt_connect : string -> connect_result.
Variable mqtt_publish : list (string * publish_args) -> string -> publish_args -> bool.

Lemma try_connect_failure (u : string) (s : SelfAdaptiveMqttManager) :
  mqtt_connect u <> connect_succeeds ->
  exists c, try_connect_to_broker mqtt_connect u s = (set_client c s, false).
Proof.
  intro H. unfold try_connect_to_broker.
  destruct (mqtt_connect u); try contradiction.
  - exists (client_ s). destruct s; reflexivity.
  - exists (Some u). reflexivity.
Qed.

Lemma connect_loop_success (failed : list string) :
  forall (i : nat) (s : SelfAdaptiveMqttManager) (target : string)
         (rest : list string),
    (forall v, In v failed -> mqtt_connect v <> connect_succeeds) ->
    mqtt_connect target = connect_succeeds ->
    exists s',
      connect_loop mqtt_connect mqtt_publish (failed ++ target :: rest) i s
      = Ret (s', true)
      /\ broker_manager_ s'
         = fst (set_current_broker target
                  (mark_all_unavailable failed (broker_manager_ s)))
      /\ is_connected_ s' = true /\ is_connecting_ s' = false
      /\ client_ s' = Some target
      /\ current_broker_try_index_ s' = i + length failed
      /\ resend_loop mqtt_publish (Some target) (message_queue_ s) (delivered_ s)
         = Ret (message_queue_ s', delivered_ s').
Proof.
  induction failed as [|v failed IH]; intros i s target rest Hfail Hok.
  - cbn [app connect_loop]. unfold try_connect_to_broker. rewrite Hok.
    destruct (resend_loop_split mqtt_publish target (message_queue_ s) (delivered_ s))
      as (sent & remaining & _ & Hrun & _).
    unfold resend_queued_messages. cbn. rewrite Hrun. cbn.
    eexists. split; [reflexivity|]. cbn.
    rewrite Nat.add_0_r. repeat split; auto.
  - cbn [app connect_loop].
    destruct (try_connect_failure v s (Hfail v (or_introl eq_refl))) as [c ->].
    destruct (IH (S i)
                (set_broker_manager
                   (mark_broker_unavailable v (broker_manager_ (set_client c s)))
                   (set_client c s))
                target rest) as (s' & Hrun & Hbm & Hc & Hg & Hcl & Hidx & Hq).
    + intros w Hw. apply Hfail. now right.
    + exact Hok.
    + exists s'. cbn in *. repeat split; auto. lia.
Qed.



End ConnectFacts.

(** * The reconnection paths return *)

Lemma mark_unavailable_available_length (u : string) (m : BrokerListManager) :
  length (available_uris (mark_broker_unavailable u m))
  <= length (available_uris m).
Proof.
  unfold available_uris, mark_broker_unavailable, get_all_brokers. cbn.
  rewrite !length_map.
  induction (brokers_ m) as [|b bs IH]; cbn; [lia|].
  destruct (has_uri u b); cbn.
  - destruct (is_available b); cbn; lia.
  - destruct (is_available b); cbn; lia.
Qed.

Lemma available_uris_length (m : BrokerListManager) :
  length (available_uris m) <= length (brokers_ m).
Proof.
  unfold available_uris, get_all_brokers. rewrite length_map.
  apply filter_length_le.
Qed.

Section ReconnectFacts.

Variable mqtt_connect : string -> connect_result.
Variable mqtt_publish : list (string * publish_args) -> string -> publish_args -> bool.

Lemma resend_with_client_returns (s : SelfAdaptiveMqttManager) (u : string) :
  client_ s = Some u ->
  exists s', resend_queued_messages mqtt_publish s = Ret s'.
Proof.
  intro Hc.
  destruct (resend_loop_split mqtt_publish u (message_queue_ s) (delivered_ s))
    as (sent & rest & _ & Hrun & _).
  unfold resend_queued_messages. rewrite Hc, Hrun. cbn. eauto.
Qed.

Lemma try_connect_cases (u : string) (s : SelfAdaptiveMqttManager) :
  (exists c, try_connect_to_broker mqtt_connect u s = (set_client c s, false))
  \/ try_connect_to_broker mqtt_connect u s = (create_client u s, true).
Proof.
  unfold try_connect_to_broker. destruct (mqtt_connect u).
  - left. exists (client_ s). destruct s; reflexivity.
  - left. exists (Some u). reflexivity.
  - right. reflexivity.
Qed.

Lemma handle_connection_failure_returns (fuel : nat) :
  forall (failed_uri : string) (s : SelfAdaptiveMqttManager),
    length (available_uris (broker_manager_ s)) - current_broker_try_index_ s < fuel ->
    exists s',
      handle_connection_failure mqtt_connect mqtt_publish fuel failed_uri s = Ret s'.
Proof.
  induction fuel as [|fuel IH]; intros failed_uri s Hfuel; [lia|].
  cbn [handle_connection_failure].
  pose proof (mark_unavailable_available_length failed_uri (broker_manager_ s)) as Hle.
  cbn [broker_manager_ set_broker_manager current_broker_try_index_].
  set (m1 := mark_broker_unavailable failed_uri (broker_manager_ s)) in *.
  destruct (available_uris m1) as [|v vs] eqn:Eav; [eauto|].
  destruct (current_broker_try_index_ s <? length (v :: vs)) eqn:Elt; [|eauto].
  apply Nat.ltb_lt in Elt.
  set (next_uri := nth (current_broker_try_index_ s) (v :: vs) ""%string).
  destruct (try_connect_cases next_uri (set_broker_manager m1 s)) as [[c ->] | ->].
  - apply IH.
    cbn [broker_manager_ set_try_index set_client set_broker_manager
         current_broker_try_index_].
    rewrite Eav. lia.
  - apply (resend_with_client_returns _ next_uri). reflexivity.
Qed.

(** [switch_to_best_broker] always returns: the fuel never runs out and
    [client_] is never dereferenced while empty. *)
Lemma switch_to_best_broker_returns (s : SelfAdaptiveMqttManager) :
  exists s', switch_to_best_broker mqtt_connect mqtt_publish s = Ret s'.
Proof.
  unfold switch_to_best_broker.
  destruct (is_connecting_ s); [eauto|].
  cbn [broker_manager_ destroy_client set_client set_is_connecting
       current_broker_try_index_].
  destruct (available_uris (broker_manager_ s)) as [|v vs] eqn:Eav; [eauto|].
  set (s1 := destroy_client (set_is_connecting true s)).
  set (s2 := if length (v :: vs) <=? current_broker_try_index_ s
             then set_try_index 0 s1 else s1).
  set (target_uri := nth (current_broker_try_index_ s2) (v :: vs) ""%string).
  assert (Hbm : broker_manager_ s2 = broker_manager_ s).
  { unfold s2. destruct (_ <=? _); reflexivity. }
  destruct (try_connect_cases target_uri s2) as [[c ->] | ->].
  - destruct (handle_connection_failure_returns
                (failure_fuel (set_client c s2)) target_uri
                (set_try_index (S (current_broker_try_index_ (set_client c s2)))
                   (set_client c s2))) as [s4 ->].
    + unfold failure_fuel. cbn. rewrite Hbm.
      pose proof (available_uris_length (broker_manager_ s)). lia.
    + cbn. eauto.
  - apply (resend_with_client_returns _ target_uri). reflexivity.
Qed.

End ReconnectFacts.

(** * The scenarios, run on the code *)

Lemma resend_queued_messages_fifo_witness :
  let s := mkManager (Some "B"%string) registry_ABC true false
             [numbered_message 1; numbered_message 2; numbered_message 3] 0 [] in
  client_ s = Some "B"%string
  /\ exists sent rest s',
       message_queue_ s = sent ++ rest
       /\ resend_queued_messages accepts_two_publishes s = Ret s'
       /\ message_queue_ s' = rest
       /\ delivered_ s' = delivered_ s ++ trace_of "B" sent
       /\ accepts_all accepts_two_publishes (delivered_ s) "B" sent
       /\ (rest = []
           \/ exists failed, hd_error rest = Some failed
                /\ accepts_two_publishes (delivered_ s') "B" (args_of failed) = false)
       /\ s' = set_delivered (delivered_ s') (set_message_queue rest s).
Proof.
  intro s. split; [reflexivity|].
  exact (resend_queued_messages_fifo accepts_two_publishes s "B"%string eq_refl).
Defined.

(** A flush that is interrupted at the third message keeps that message
    and leaves the first two, in order, with the client. *)
Example interrupted_flush :
  let s := mkManager (Some "B"%string) registry_ABC true false
             [numbered_message 1; numbered_message 2; numbered_message 3] 0 [] in
  resend_queued_messages accepts_two_publishes s
  = Ret (mkManager (Some "B"%string) registry_ABC true false
           [numbered_message 3] 0
           [("B"%string, args_of (numbered_message 1));
            ("B"%string, args_of (numbered_message 2))]).
Proof. reflexivity. Qed.

Lemma publish_queues_when_disconnected_or_failed_witness :
  let idle := mkManager None registry_ABC false false [numbered_message 1] 0 [] in
  let busy := mkManager (Some "B"%string) registry_ABC true false [] 0 [] in
  (is_connected_ idle = false
   /\ publish accepts_every_publish "t" "p2" 1%Z false 7 idle
      = Ret (add_message_to_queue "t" "p2" 1%Z false 7 idle, None))
  /\ (is_connected_ busy = true /\ client_ busy = Some "B"%string
      /\ rejects_every_publish (delivered_ busy) "B"%string
           ("t"%string, "p3"%string, 1%Z, false) = false
      /\ publish rejects_every_publish "t" "p3" 1%Z false 8 busy
         = Ret (add_message_to_queue "t" "p3" 1%Z false 8 busy, None)).
Proof.
  intros idle busy. split.
  - split; [reflexivity|].
    exact (proj1 (publish_queues_when_disconnected_or_failed
                    accepts_every_publish "t" "p2" 1%Z false 7 idle) eq_refl).
  - split; [reflexivity|]. split; [reflexivity|]. split; [reflexivity|].
    exact (proj1 (proj2 (publish_queues_when_disconnected_or_failed
                           rejects_every_publish "t" "p3" 1%Z false 8 busy))
             "B"%string eq_refl eq_refl eq_refl).
Defined.


(** Scenario 1 of the specification (fall-through on startup): with the
    registry [A, B, C], A unreachable and B reachable, [connect] returns
    true, B is current, A is unavailable and the queue is empty. *)
Example fall_through_on_startup :
  exists s',
    connect only_B_connects accepts_every_publish
      (mkManager None registry_ABC false false [numbered_message 1] 0 [])
    = Ret (s', true)
    /\ get_current_broker_uri (broker_manager_ s') = "B"%string
    /\ map (fun b => (uri b, is_available b)) (brokers_ (broker_manager_ s'))
       = [("A"%string, false); ("B"%string, true); ("C"%string, true)]
    /\ message_queue_ s' = []
    /\ delivered_ s' = [("B"%string, args_of (numbered_message 1))].
Proof. eexists. split; [vm_compute; reflexivity|]. vm_compute. repeat split. Qed.

(** When no broker is reachable, [connect] returns false after one
    attempt per available broker, and all of them are unavailable. *)
Example connect_exhausts_brokers :
  exists s',
    connect no_broker_connects accepts_every_publish
      (mkManager None registry_ABC false false [] 0 [])
    = Ret (s', false)
    /\ available_uris (broker_manager_ s') = []
    /\ is_connected_ s' = false /\ is_connecting_ s' = false.
Proof. eexists. split; [vm_compute; reflexivity|]. vm_compute. repeat split. Qed.

(** The state [connected_to_A_B_better] is what [connect] produces on the
    registry [A, B], up to the measurements the monitor adds. *)
Example connect_reaches_first_broker :
  connect every_broker_connects accepts_every_publish
    (mkManager None
       (add_broker "B" 1 (add_broker "A" 0 (new_BrokerListManager "sensor")))
       false false [] 0 [])
  = Ret (mkManager (Some "A"%string)
           (add_broker "B" 1 (add_broker "A" 0 (new_BrokerListManager "sensor")))
           true false [] 0 [], true).
Proof. reflexivity. Qed.

(** C1 (defect of the code). The manager is connected to A, the registry
    holds A (score 0.18, current) and B (score 0.92), so [should_switch_broker]
    confirms the switch and the best-scored broker is B. [on_broker_switch "B"]
    then destroys the client and reconnects to the broker at the try index
    of the availability-ordered list, which is A: the manager ends in the
    state it started from, with A current, and [should_switch_broker] still
    asks for a switch. *)
Theorem switch_to_best_broker_ignores_scores :
  let s := connected_to_A_B_better in
  should_switch_broker (broker_manager_ s) = true
  /\ option_map uri (find_best_broker (broker_manager_ s)) = Some "B"%string
  /\ available_uris (broker_manager_ s) = ["A"%string; "B"%string]
  /\ client_ s = Some "A"%string
  /\ get_current_broker_uri (broker_manager_ s) = "A"%string
  /\ on_broker_switch every_broker_connects accepts_every_publish "B" s = Ret s.
Proof.
  cbn zeta.
  split; [vm_compute; reflexivity|].
  split; [vm_compute; reflexivity|].
  split; [vm_compute; reflexivity|].
  split; [vm_compute; reflexivity|].
  split; vm_compute; reflexivity.
Qed.

(** * Further facts about the registry *)

Lemma existsb_not_registered (u : string) (bs : list BrokerInfo) :
  existsb (has_uri u) bs = false -> ~ In u (map uri bs).
Proof.
  induction bs as [|b bs IH]; cbn; [auto|].
  intro H. apply orb_false_iff in H as [Hb Hbs].
  intros [E | Hin]; [|exact (IH Hbs Hin)].
  unfold has_uri in Hb. rewrite E, String.eqb_refl in Hb. discriminate Hb.
Qed.

Lemma erase_at_uris_incl (i : nat) (bs : list BrokerInfo) (u : string) :
  In u (map uri (erase_at i bs)) -> In u (map uri bs).
Proof.
  revert i. induction bs as [|b bs IH]; intros [|i]; cbn; auto.
  intros [E | H]; eauto.
Qed.

Lemma erase_at_NoDup (i : nat) (bs : list BrokerInfo) :
  NoDup (map uri bs) -> NoDup (map uri (erase_at i bs)).
Proof.
  revert i. induction bs as [|b bs IH]; intros [|i] H; cbn; auto.
  - now inversion H.
  - inversion H as [|x xs Hx Hxs]; subst. constructor; [|auto].
    intro Hin. apply Hx. eapply erase_at_uris_incl; eassumption.
Qed.

Lemma update_score_uri (w : ScoreWeights) (b : BrokerInfo) :
  uri (update_score w b) = uri b.
Proof. unfold update_score. destruct (is_available b); reflexivity. Qed.

Lemma update_score_available (w : ScoreWeights) (b : BrokerInfo) :
  is_available (update_score w b) = is_available b.
Proof.
  unfold update_score. destruct (is_available b) eqn:E; cbn; exact E.
Qed.

Lemma NoDup_snoc (l : list string) (u : string) :
  NoDup l -> ~ In u l -> NoDup (l ++ [u]).
Proof.
  induction 1 as [|x l Hx Hl IH]; cbn; intro Hu.
  - constructor; [intros [] | constructor].
  - constructor.
    + intro Hin. apply in_app_or in Hin as [Hin | [<- | []]]; [auto|].
      apply Hu. now left.
    + apply IH. intro Hin. apply Hu. now right.
Qed.

Lemma reachable_uris_NoDup (m : BrokerListManager) :
  reachable m -> NoDup (get_broker_uris m).
Proof.
  unfold get_broker_uris.
  induction 1 as [c | u now m Hm IH | u m Hm IH | m Hm IH | u m Hm IH
                 | u lat bw cc now m Hm IH | u m Hm IH | u m Hm IH | c m Hm IH].
  - constructor.
  - unfold add_broker.
    destruct (existsb (has_uri u) (brokers_ m)) eqn:E; [exact IH|].
    cbn [brokers_]. rewrite map_app. cbn [map].
    apply NoDup_snoc; [exact IH | apply existsb_not_registered, E].
  - unfold remove_broker.
    destruct (find_index u (brokers_ m)); [|exact IH].
    cbn [brokers_]. apply erase_at_NoDup, IH.
  - constructor.
  - unfold set_current_broker.
    destruct (find_index u (brokers_ m)); exact IH.
  - unfold update_broker_metrics, with_brokers. cbn [brokers_].
    rewrite update_first_uris; [exact IH|].
    intro b. rewrite update_score_uri. reflexivity.
  - unfold mark_broker_unavailable, with_brokers. cbn [brokers_].
    rewrite update_first_uris; [exact IH | reflexivity].
  - unfold mark_broker_available, with_brokers. cbn [brokers_].
    rewrite update_first_uris; [exact IH|].
    intro b. rewrite update_score_uri. reflexivity.
  - exact IH.
Qed.

(** X1. URIs are unique in every registry state the operations can
    produce. *)
Theorem registry_uris_unique (m : BrokerListManager) :
  reachable m -> NoDup (get_broker_uris m).
Proof. apply reachable_uris_NoDup. Qed.

Lemma registry_uris_unique_witness :
  let m := add_broker "a" 2 (add_broker "b" 1 (add_broker "a" 0
             (new_BrokerListManager "sensor"))) in
  reachable m /\ NoDup (get_broker_uris m).
Proof.
  intro m. assert (Hm : reachable m) by (repeat constructor).
  split; [exact Hm | exact (registry_uris_unique m Hm)].
Defined.

(** X2. In every registry state the operations can produce, a non-empty
    registry has a current broker (the index is in range, so
    [get_current_broker] is not null and names a registered record), and an
    empty registry has index 0 and the empty string as current URI. *)
Theorem current_broker_exists (m : BrokerListManager) :
  reachable m ->
  (brokers_ m <> [] ->
   exists current,
     get_current_broker m = Some current /\ In current (brokers_ m)
     /\ get_current_broker_uri m = uri current)
  /\ (brokers_ m = [] ->
      current_broker_index_ m = 0 /\ get_current_broker m = None
      /\ get_current_broker_uri m = ""%string).
Proof.
  intro Hm. pose proof (reachable_index_ok m Hm) as Hidx.
  unfold index_ok in Hidx. unfold get_current_broker_uri, get_current_broker.
  split.
  - intro Hne. destruct Hidx as [Hlt | [He _]]; [|contradiction].
    destruct (nth_error (brokers_ m) (current_broker_index_ m)) as [c|] eqn:E.
    + exists c. repeat split. eapply nth_error_In; eassumption.
    + apply nth_error_None in E. lia.
  - intro He. destruct Hidx as [Hlt | [_ H0]].
    + rewrite He in Hlt. cbn in Hlt. lia.
    + rewrite He, H0. cbn. auto.
Qed.

Lemma current_broker_exists_witness :
  let m := remove_broker "a" (add_broker "b" 1 (add_broker "a" 0
             (new_BrokerListManager "sensor"))) in
  reachable m /\ brokers_ m <> []
  /\ exists current,
       get_current_broker m = Some current /\ In current (brokers_ m)
       /\ get_current_broker_uri m = uri current.
Proof.
  intro m. assert (Hm : reachable m) by (repeat constructor).
  assert (Hne : brokers_ m <> []) by discriminate.
  split; [exact Hm|]. split; [exact Hne|].
  exact (proj1 (current_broker_exists m Hm) Hne).
Defined.

Lemma best_fold_shape (bs : list BrokerInfo) :
  forall (o : option BrokerInfo) (q : Q),
    (fold_left best_step bs (o, q) = (o, q)
     /\ forall b, In b bs -> is_available b = true -> (score b <= q)%Q)
    \/ (exists pre best post,
          bs = pre ++ best :: post
          /\ fold_left best_step bs (o, q) = (Some best, score best)
          /\ is_available best = true
          /\ (q < score best)%Q
          /\ (forall b, In b pre -> is_available b = true ->
                (score b < score best)%Q)
          /\ (forall b, In b post -> is_available b = true ->
                (score b <= score best)%Q)).
Proof.
  induction bs as [|b bs IH]; intros o q.
  - left. split; [reflexivity | intros b []].
  - cbn [fold_left]. unfold best_step at 2 4. cbn [snd].
    destruct (is_available b && Qltb q (score b)) eqn:E.
    + apply andb_true_iff in E as [Ha Hq]. apply Qltb_true in Hq.
      right. destruct (IH (Some b) (score b)) as [[Hf Hle] | Hfound].
      * exists [], b, bs. repeat split; auto. intros x [].
      * destruct Hfound as (pre & best & post & Hbs & Hf & Hab & Hlt & Hpre & Hpost).
        exists (b :: pre), best, post.
        split; [rewrite Hbs; reflexivity|]. repeat split; auto.
        -- eapply Qlt_trans; eassumption.
        -- intros x [<- | Hx] Hax; auto.
    + assert (Hb : is_available b = true -> (score b <= q)%Q).
      { intro Ha. rewrite Ha in E. cbn in E. apply Qltb_false, E. }
      destruct (IH o q) as [[Hf Hle] | Hfound].
      * left. split; [exact Hf|]. intros x [<- | Hx]; auto.
      * right.
        destruct Hfound as (pre & best & post & Hbs & Hf & Hab & Hlt & Hpre & Hpost).
        exists (b :: pre), best, post.
        split; [rewrite Hbs; reflexivity|]. repeat split; auto.
        intros x [<- | Hx] Hax; auto.
        eapply Qle_lt_trans; [apply Hb, Hax | exact Hlt].
Qed.

(** X3. [find_best_broker] returns an available record of maximal score,
    and among the available records of that score the one registered
    first: every available record before it has a strictly smaller score,
    every available record after it a score that is not larger. It returns
    nothing exactly when no available record has a score above -1. *)
Theorem find_best_broker_is_first_maximum (m : BrokerListManager) :
  (forall best, find_best_broker m = Some best ->
     exists before after,
       brokers_ m = before ++ best :: after
       /\ is_available best = true
       /\ (forall b, In b before -> is_available b = true ->
             (score b < score best)%Q)
       /\ (forall b, In b after -> is_available b = true ->
             (score b <= score best)%Q))
  /\ (find_best_broker m = None <->
      forall b, In b (brokers_ m) -> is_available b = true ->
        (score b <= -(1))%Q).
Proof.
  unfold find_best_broker.
  destruct (best_fold_shape (brokers_ m) None (-(1))%Q)
    as [[Hf Hle] | (pre & best & post & Hbs & Hf & Hab & Hlt & Hpre & Hpost)].
  - rewrite Hf. cbn. split; [discriminate|]. split; auto.
  - rewrite Hf. cbn. split.
    + intros x Hx. injection Hx as <-. exists pre, post. auto.
    + split; [discriminate|]. intro H. exfalso.
      assert (Hin : In best (brokers_ m)).
      { rewrite Hbs. apply in_or_app. right. now left. }
      apply (Qlt_not_le _ _ Hlt). apply H; assumption.
Qed.

Lemma find_best_broker_is_first_maximum_witness :
  let best := mkBrokerInfo "C" 0 0 0%Z (82 # 100) true 0 in
  let m := mkBrokerListManager
             [ mkBrokerInfo "B" 0 0 0%Z (70 # 100) true 0; best;
               mkBrokerInfo "D" 0 0 0%Z (82 # 100) true 0 ] 0 "sensor" in
  find_best_broker m = Some best
  /\ exists before after,
       brokers_ m = before ++ best :: after
       /\ is_available best = true
       /\ (forall b, In b before -> is_available b = true ->
             (score b < score best)%Q)
       /\ (forall b, In b after -> is_available b = true ->
             (score b <= score best)%Q).
Proof.
  intros best m.
  assert (H : find_best_broker m = Some best) by reflexivity.
  split; [exact H|].
  exact (proj1 (find_best_broker_is_first_maximum m) best H).
Defined.

Lemma find_index_nth (u : string) (bs : list BrokerInfo) (i : nat) :
  find_index u bs = Some i ->
  exists b, nth_error bs i = Some b /\ uri b = u
            /\ forall j x, j < i -> nth_error bs j = Some x -> uri x <> u.
Proof.
  revert i. induction bs as [|b bs IH]; cbn; intros i; [discriminate|].
  destruct (has_uri u b) eqn:E.
  - intro H. injection H as <-. exists b.
    unfold has_uri in E. apply String.eqb_eq in E.
    repeat split; auto. intros j x Hj. lia.
  - destruct (find_index u bs) as [k|]; [|discriminate].
    intro H. injection H as <-.
    destruct (IH k eq_refl) as (x & Hx & Hu & Hbefore).
    exists x. repeat split; auto.
    intros [|j] y Hj Hy; cbn in Hy.
    + injection Hy as <-. unfold has_uri in E. apply String.eqb_neq in E. exact E.
    + apply (Hbefore j y); [lia | exact Hy].
Qed.

Lemma find_index_none (u : string) (bs : list BrokerInfo) :
  find_index u bs = None <-> ~ In u (map uri bs).
Proof.
  split.
  - intros H Hin.
    destruct (find_index_registered u bs Hin) as (i & b & Hi & _).
    congruence.
  - intro H. destruct (find_index u bs) as [i|] eqn:E; [|reflexivity].
    destruct (find_index_nth u bs i E) as (b & Hb & Hu & _).
    exfalso. apply H. rewrite <- Hu. apply in_map.
    eapply nth_error_In; eassumption.
Qed.

(** X4. [set_current_broker u] succeeds exactly when [u] is registered.
    On success the records are untouched and the current broker is the
    record registered under [u]; on failure the registry is unchanged, so
    the previous current broker stays. *)
Theorem set_current_broker_registered (u : string) (m : BrokerListManager) :
  (snd (set_current_broker u m) = true <-> In u (get_broker_uris m))
  /\ (snd (set_current_broker u m) = true ->
      brokers_ (fst (set_current_broker u m)) = brokers_ m
      /\ get_current_broker (fst (set_current_broker u m)) = find_broker u m
      /\ get_current_broker_uri (fst (set_current_broker u m)) = u)
  /\ (snd (set_current_broker u m) = false -> fst (set_current_broker u m) = m).
Proof.
  unfold set_current_broker, get_broker_uris.
  destruct (find_index u (brokers_ m)) as [i|] eqn:E; cbn [fst snd].
  - destruct (find_index_nth u (brokers_ m) i E) as (b & Hb & Hu & Hbefore).
    assert (Hin : In u (map uri (brokers_ m))).
    { rewrite <- Hu. apply in_map. eapply nth_error_In; eassumption. }
    split; [tauto|]. split; [|discriminate].
    intros _. split; [reflexivity|].
    unfold get_current_broker_uri, get_current_broker, find_broker, get_all_brokers.
    cbn [brokers_ current_broker_index_]. rewrite Hb. split; [|exact Hu].
    clear Hin Hbefore. revert i E Hb.
    induction (brokers_ m) as [|x xs IH]; intros i E Hb; [discriminate E|].
    cbn in E |- *. destruct (has_uri u x).
    + injection E as <-. cbn in Hb. symmetry. exact Hb.
    + destruct (find_index u xs) as [k|]; [|discriminate E].
      injection E as <-. apply (IH k eq_refl Hb).
  - apply find_index_none in E.
    split; [split; [discriminate | contradiction]|].
    split; [discriminate | reflexivity].
Qed.

Lemma set_current_broker_registered_witness :
  let m := add_broker "b" 1 (add_broker "a" 0 (new_BrokerListManager "sensor")) in
  snd (set_current_broker "b" m) = true
  /\ get_current_broker_uri (fst (set_current_broker "b" m)) = "b"%string
  /\ snd (set_current_broker "c" m) = false
  /\ fst (set_current_broker "c" m) = m.
Proof.
  intro m.
  assert (Hb : snd (set_current_broker "b" m) = true) by reflexivity.
  assert (Hc : snd (set_current_broker "c" m) = false) by reflexivity.
  split; [exact Hb|].
  split; [exact (proj2 (proj2 (proj1 (proj2 (set_current_broker_registered "b" m)) Hb)))|].
  split; [exact Hc|].
  exact (proj2 (proj2 (set_current_broker_registered "c" m)) Hc).
Defined.

Lemma filter_other_uris_id (u : string) (l : list string) :
  ~ In u l -> filter (fun v => negb (String.eqb v u)) l = l.
Proof.
  induction l as [|x l IH]; cbn; [reflexivity|].
  intro H. destruct (String.eqb x u) eqn:E; cbn.
  - apply String.eqb_eq in E. exfalso. apply H. now left.
  - rewrite IH; [reflexivity|]. intro Hin. apply H. now right.
Qed.

Lemma erase_first_uris (u : string) (bs : list BrokerInfo) (i : nat) :
  NoDup (map uri bs) -> find_index u bs = Some i ->
  map uri (erase_at i bs)
  = filter (fun v => negb (String.eqb v u)) (map uri bs).
Proof.
  revert i. induction bs as [|b bs IH]; cbn; intros i Hnd; [discriminate|].
  inversion Hnd as [|x xs Hx Hxs]; subst.
  unfold has_uri at 1. destruct (String.eqb (uri b) u) eqn:E.
  - intro H. injection H as <-. cbn.
    apply String.eqb_eq in E. subst u.
    symmetry. apply filter_other_uris_id, Hx.
  - destruct (find_index u bs) as [k|]; [|discriminate].
    intro H. injection H as <-. cbn. f_equal. apply IH; auto.
Qed.

(** X5. In every registry state the operations can produce,
    [remove_broker u] takes [u] out of the registered URIs and keeps all
    the others in their order; afterwards [u] is not registered. *)
Theorem remove_broker_uris (u : string) (m : BrokerListManager) :
  reachable m ->
  get_broker_uris (remove_broker u m)
  = filter (fun v => negb (String.eqb v u)) (get_broker_uris m)
  /\ ~ In u (get_broker_uris (remove_broker u m)).
Proof.
  intro Hm. pose proof (reachable_uris_NoDup m Hm) as Hnd.
  assert (Heq : get_broker_uris (remove_broker u m)
                = filter (fun v => negb (String.eqb v u)) (get_broker_uris m)).
  { unfold remove_broker, get_broker_uris in *.
    destruct (find_index u (brokers_ m)) as [i|] eqn:E.
    - cbn [brokers_]. apply erase_first_uris; assumption.
    - symmetry. apply filter_other_uris_id. apply find_index_none, E. }
  split; [exact Heq|].
  rewrite Heq. intro Hin. apply filter_In in Hin as [_ Hin].
  rewrite String.eqb_refl in Hin. discriminate Hin.
Qed.

Lemma remove_broker_uris_witness :
  let m := add_broker "c" 2 (add_broker "b" 1 (add_broker "a" 0
             (new_BrokerListManager "sensor"))) in
  reachable m
  /\ get_broker_uris (remove_broker "b" m) = ["a"%string; "c"%string]
  /\ ~ In "b"%string (get_broker_uris (remove_broker "b" m)).
Proof.
  intro m. assert (Hm : reachable m) by (repeat constructor).
  split; [exact Hm|].
  destruct (remove_broker_uris "b" m Hm) as [Heq Hnot].
  split; [rewrite Heq; reflexivity | exact Hnot].
Defined.

Lemma nth_error_erase_at (i j : nat) (bs : list BrokerInfo) :
  nth_error (erase_at i bs) j
  = if j <? i then nth_error bs j else nth_error bs (S j).
Proof.
  revert i j. induction bs as [|b bs IH]; intros i j.
  - destruct i; cbn [erase_at]; destruct (j <? _); destruct j; reflexivity.
  - destruct i as [|i]; [reflexivity|].
    destruct j as [|j]; [reflexivity|].
    cbn [erase_at nth_error]. rewrite IH.
    change (S j <? S i) with (j <? i). reflexivity.
Qed.

Lemma unique_uri_find_index (bs : list BrokerInfo) (i : nat) (b : BrokerInfo) :
  NoDup (map uri bs) -> nth_error bs i = Some b ->
  find_index (uri b) bs = Some i.
Proof.
  revert i. induction bs as [|x bs IH]; intros i Hnd Hb.
  - destruct i; discriminate Hb.
  - inversion Hnd as [|y ys Hy Hys]; subst. cbn.
    destruct i as [|i]; cbn in Hb.
    + injection Hb as ->. unfold has_uri. rewrite String.eqb_refl. reflexivity.
    + unfold has_uri. destruct (String.eqb (uri x) (uri b)) eqn:E.
      * apply String.eqb_eq in E. exfalso. apply Hy. rewrite E.
        apply in_map. eapply nth_error_In; eassumption.
      * rewrite (IH i Hys Hb). reflexivity.
Qed.

(** X6. Removing a broker other than the current one leaves the same
    record current, whatever its position. Removing the current broker, in
    a registry state the operations can produce, makes the record that
    followed it current, or the record before it when it was the last one,
    or none when it was the only one. *)
Theorem remove_broker_current (u : string) (m : BrokerListManager)
  (current : BrokerInfo) :
  get_current_broker m = Some current ->
  (uri current <> u ->
   get_current_broker (remove_broker u m) = Some current)
  /\ (reachable m -> uri current = u ->
      get_current_broker (remove_broker u m)
      = match nth_error (brokers_ m) (S (current_broker_index_ m)) with
        | Some next => Some next
        | None =>
            if current_broker_index_ m =? 0 then None
            else nth_error (brokers_ m) (current_broker_index_ m - 1)
        end).
Proof.
  unfold get_current_broker. intro Hc. split.
  - intro Hne. unfold remove_broker.
    destruct (find_index u (brokers_ m)) as [i|] eqn:E; [|exact Hc].
    destruct (find_index_nth u (brokers_ m) i E) as (b & Hb & Hu & _).
    assert (Hi : i <> current_broker_index_ m).
    { intros ->. rewrite Hc in Hb. injection Hb as <-. contradiction. }
    cbn [brokers_ current_broker_index_].
    replace (i =? current_broker_index_ m) with false
      by (symmetry; apply Nat.eqb_neq; exact Hi).
    rewrite nth_error_erase_at.
    destruct (i <? current_broker_index_ m) eqn:Elt.
    + apply Nat.ltb_lt in Elt.
      replace (current_broker_index_ m - 1 <? i) with false
        by (symmetry; apply Nat.ltb_ge; lia).
      replace (S (current_broker_index_ m - 1)) with (current_broker_index_ m)
        by lia.
      exact Hc.
    + apply Nat.ltb_ge in Elt.
      replace (current_broker_index_ m <? i) with true
        by (symmetry; apply Nat.ltb_lt; lia).
      exact Hc.
  - intros Hm <-.
    pose proof (reachable_uris_NoDup m Hm) as Hnd.
    pose proof (unique_uri_find_index _ _ _ Hnd Hc) as Hf.
    assert (Hlt : current_broker_index_ m < length (brokers_ m)).
    { apply nth_error_Some. rewrite Hc. discriminate. }
    pose proof (erase_at_length _ _ Hlt) as Hlen.
    unfold remove_broker. rewrite Hf.
    cbn [brokers_ current_broker_index_]. rewrite Nat.eqb_refl.
    set (cur := current_broker_index_ m) in *.
    destruct (erase_at cur (brokers_ m)) as [|x xs] eqn:Ee.
    + cbn in Hlen.
      assert (Hcur : cur = 0) by lia.
      replace (nth_error (brokers_ m) (S cur)) with (@None BrokerInfo)
        by (symmetry; apply nth_error_None; lia).
      rewrite Hcur. reflexivity.
    + rewrite <- Ee. rewrite (erase_at_length _ _ Hlt).
      destruct (length (brokers_ m) - 1 <=? cur) eqn:Ele.
      * apply Nat.leb_le in Ele.
        replace (nth_error (brokers_ m) (S cur)) with (@None BrokerInfo)
          by (symmetry; apply nth_error_None; lia).
        cbn in Hlen.
        replace (cur =? 0) with false by (symmetry; apply Nat.eqb_neq; lia).
        rewrite nth_error_erase_at.
        replace (length (brokers_ m) - 1 - 1) with (cur - 1) by lia.
        replace (cur - 1 <? cur) with true by (symmetry; apply Nat.ltb_lt; lia).
        reflexivity.
      * apply Nat.leb_gt in Ele.
        rewrite nth_error_erase_at, Nat.ltb_irrefl.
        destruct (nth_error (brokers_ m) (S cur)) as [next|] eqn:En;
          [reflexivity|].
        apply nth_error_None in En. lia.
Qed.

Lemma remove_broker_current_witness :
  let m := fst (set_current_broker "b"
             (add_broker "c" 2 (add_broker "b" 1 (add_broker "a" 0
                (new_BrokerListManager "sensor"))))) in
  let b := new_BrokerInfo "b" 1 in
  get_current_broker m = Some b /\ uri b <> "a"%string
  /\ get_current_broker (remove_broker "a" m) = Some b
  /\ reachable m
  /\ get_current_broker (remove_broker "b" m) = Some (new_BrokerInfo "c" 2).
Proof.
  intros m b.
  assert (Hc : get_current_broker m = Some b) by reflexivity.
  assert (Hne : uri b <> "a"%string) by discriminate.
  assert (Hm : reachable m) by (repeat constructor).
  split; [exact Hc|]. split; [exact Hne|].
  split; [exact (proj1 (remove_broker_current "a" m b Hc) Hne)|].
  split; [exact Hm|].
  exact (proj2 (remove_broker_current "b" m b Hc) Hm eq_refl).
Defined.

Lemma update_first_unregistered (u : string) (f : BrokerInfo -> BrokerInfo)
  (bs : list BrokerInfo) :
  ~ In u (map uri bs) -> update_first u f bs = bs.
Proof.
  induction bs as [|b bs IH]; cbn; [reflexivity|].
  intro H. unfold has_uri at 1. destruct (String.eqb (uri b) u) eqn:E.
  - apply String.eqb_eq in E. exfalso. apply H. now left.
  - rewrite IH; [reflexivity|]. intro Hin. apply H. now right.
Qed.

Lemma find_unregistered (u : string) (bs : list BrokerInfo) :
  ~ In u (map uri bs) -> find (has_uri u) bs = None.
Proof.
  induction bs as [|b bs IH]; cbn; [reflexivity|].
  intro H. unfold has_uri at 1. destruct (String.eqb (uri b) u) eqn:E.
  - apply String.eqb_eq in E. exfalso. apply H. now left.
  - apply IH. intro Hin. apply H. now right.
Qed.

Lemma with_brokers_same (m : BrokerListManager) : with_brokers m (brokers_ m) = m.
Proof. destruct m; reflexivity. Qed.

(** X7. A URI that is not registered is ignored by every operation that
    takes one: [remove_broker], [update_broker_metrics],
    [mark_broker_unavailable] and [mark_broker_available] leave the
    registry as it is, [set_current_broker] fails and leaves it as it is,
    and [is_broker_available] answers false. *)
Theorem unregistered_uri_is_ignored (u : string) (m : BrokerListManager)
  (lat bw : Q) (cc : Z) (now : time_point) :
  ~ In u (get_broker_uris m) ->
  remove_broker u m = m
  /\ update_broker_metrics u lat bw cc now m = m
  /\ mark_broker_unavailable u m = m
  /\ mark_broker_available u m = m
  /\ set_current_broker u m = (m, false)
  /\ is_broker_available u m = false.
Proof.
  unfold get_broker_uris. intro H.
  pose proof (proj2 (find_index_none u (brokers_ m)) H) as Hf.
  unfold remove_broker, update_broker_metrics, mark_broker_unavailable,
    mark_broker_available, set_current_broker, is_broker_available.
  rewrite Hf, !(update_first_unregistered u _ _ H), with_brokers_same,
    (find_unregistered u _ H).
  repeat split.
Qed.

Lemma unregistered_uri_is_ignored_witness :
  let m := add_broker "b" 1 (add_broker "a" 0 (new_BrokerListManager "sensor")) in
  ~ In "c"%string (get_broker_uris m)
  /\ update_broker_metrics "c" 10 2000000 10%Z 5 m = m
  /\ mark_broker_unavailable "c" m = m.
Proof.
  intro m.
  assert (H : ~ In "c"%string (get_broker_uris m)).
  { cbn. intros [E | [E | []]]; discriminate E. }
  split; [exact H|].
  destruct (unregistered_uri_is_ignored "c" m 10 2000000 10%Z 5 H)
    as (_ & Hu & Hm & _).
  split; [exact Hu | exact Hm].
Defined.


Lemma find_update_first (u v : string) (f : BrokerInfo -> BrokerInfo)
  (bs : list BrokerInfo) :
  (forall b, uri (f b) = uri b) ->
  find (has_uri v) (update_first u f bs)
  = if String.eqb v u then option_map f (find (has_uri u) bs)
    else find (has_uri v) bs.
Proof.
  intro Hf. induction bs as [|b bs IH]; cbn.
  - destruct (String.eqb v u); reflexivity.
  - destruct (has_uri u b) eqn:Eu; cbn.
    + unfold has_uri at 1. rewrite Hf. fold (has_uri v b).
      destruct (String.eqb v u) eqn:Ev.
      * apply String.eqb_eq in Ev. subst v. rewrite Eu. reflexivity.
      * replace (has_uri v b) with false; [reflexivity|].
        symmetry. unfold has_uri in *. apply String.eqb_eq in Eu.
        apply String.eqb_neq. apply String.eqb_neq in Ev. congruence.
    + destruct (String.eqb v u) eqn:Ev.
      * apply String.eqb_eq in Ev. subst v. rewrite Eu. exact IH.
      * destruct (has_uri v b); [reflexivity | exact IH].
Qed.



Lemma update_first_twice (u : string) (f g : BrokerInfo -> BrokerInfo)
  (bs : list BrokerInfo) :
  (forall b, uri (f b) = uri b) ->
  update_first u g (update_first u f bs)
  = update_first u (fun b => g (f b)) bs.
Proof.
  intro Hf. induction bs as [|b bs IH]; cbn; [reflexivity|].
  destruct (has_uri u b) eqn:E; cbn.
  - unfold has_uri at 1. rewrite Hf. fold (has_uri u b). rewrite E. reflexivity.
  - rewrite E, IH. reflexivity.
Qed.

Lemma update_first_ext_found (u : string) (f g : BrokerInfo -> BrokerInfo)
  (bs : list BrokerInfo) :
  (forall b, find (has_uri u) bs = Some b -> f b = g b) ->
  update_first u f bs = update_first u g bs.
Proof.
  induction bs as [|b bs IH]; cbn; [reflexivity|].
  destruct (has_uri u b) eqn:E; intro H.
  - rewrite (H b eq_refl). reflexivity.
  - rewrite (IH H). reflexivity.
Qed.

Lemma update_first_id_found (u : string) (f : BrokerInfo -> BrokerInfo)
  (bs : list BrokerInfo) :
  (forall b, find (has_uri u) bs = Some b -> f b = b) ->
  update_first u f bs = bs.
Proof.
  induction bs as [|b bs IH]; cbn; [reflexivity|].
  destruct (has_uri u b) eqn:E; intro H.
  - rewrite (H b eq_refl). reflexivity.
  - rewrite (IH H). reflexivity.
Qed.

(** X9. [mark_broker_unavailable u] followed by [mark_broker_available u]
    is the same as [mark_broker_available u] alone; and when the record of
    [u] is available and its score is the one [update_broker_metrics]
    computed for its metrics (under the registry's category), the pair of
    calls gives back exactly the registry it started from. *)
Theorem mark_unavailable_then_available (u : string) (m : BrokerListManager) :
  mark_broker_available u (mark_broker_unavailable u m)
  = mark_broker_available u m
  /\ (forall lat bw cc now,
        is_broker_available u m = true ->
        let m1 := update_broker_metrics u lat bw cc now m in
        mark_broker_available u (mark_broker_unavailable u m1) = m1).
Proof.
  assert (Hcomp : forall m0,
             mark_broker_available u (mark_broker_unavailable u m0)
             = mark_broker_available u m0).
  { intro m0. unfold mark_broker_available, mark_broker_unavailable, with_brokers.
    cbn [brokers_ current_broker_index_ category_].
    rewrite update_first_twice by reflexivity.
    reflexivity. }
  split; [apply Hcomp|].
  intros lat bw cc now Ha. cbn zeta. rewrite Hcomp.
  unfold mark_broker_available, update_broker_metrics, with_brokers.
  cbn [brokers_ current_broker_index_ category_].
  rewrite update_first_twice
    by (intro b; rewrite update_score_uri; reflexivity).
  f_equal. apply update_first_ext_found. intros b Hb.
  unfold is_broker_available in Ha. rewrite Hb in Ha.
  unfold update_score. cbn. rewrite !Ha. reflexivity.
Qed.

Lemma mark_unavailable_then_available_witness :
  let m := add_broker "b" 1 (add_broker "a" 0 (new_BrokerListManager "camera")) in
  let m1 := update_broker_metrics "a" 10 2000000 10%Z 5 m in
  is_broker_available "a" m = true
  /\ mark_broker_available "a" (mark_broker_unavailable "a" m1) = m1.
Proof.
  intros m m1.
  assert (Ha : is_broker_available "a" m = true) by reflexivity.
  split; [exact Ha|].
  exact (proj2 (mark_unavailable_then_available "a" m) 10%Q 2000000%Q 10%Z 5 Ha).
Defined.

(** X10. Switching to the broker [find_best_broker] names settles the
    registry: right after [set_current_broker] on the best broker's URI,
    [should_switch_broker] answers false. *)
Theorem no_switch_after_switching_to_best (m : BrokerListManager)
  (best : BrokerInfo) :
  find_best_broker m = Some best ->
  snd (set_current_broker (uri best) m) = true
  /\ should_switch_broker (fst (set_current_broker (uri best) m)) = false.
Proof.
  intro Hbest.
  assert (Hin : In (uri best) (map uri (brokers_ m))).
  { unfold find_best_broker in Hbest.
    apply best_fold_result in Hbest as [H | [H _]]; [discriminate H|].
    apply in_map, H. }
  destruct (find_index_registered (uri best) (brokers_ m) Hin)
    as (i & c & Hi & Hc & Hu).
  unfold set_current_broker. rewrite Hi. cbn [fst snd]. split; [reflexivity|].
  unfold should_switch_broker, get_current_broker, find_best_broker in *.
  cbn [brokers_ current_broker_index_]. rewrite Hc, Hbest, Hu.
  rewrite String.eqb_refl. reflexivity.
Qed.

Lemma no_switch_after_switching_to_best_witness :
  let m := registry_B_better in
  let best := mkBrokerInfo "B" 10 2000000 10%Z
                (score (update_score sensor_weights
                          (mkBrokerInfo "B" 10 2000000 10%Z 0 true 4)))
                true 4 in
  find_best_broker m = Some best
  /\ should_switch_broker m = true
  /\ should_switch_broker (fst (set_current_broker (uri best) m)) = false.
Proof.
  intros m best.
  assert (H : find_best_broker m = Some best) by reflexivity.
  split; [exact H|]. split; [reflexivity|].
  exact (proj2 (no_switch_after_switching_to_best m best H)).
Defined.

Lemma existsb_has_uri_uris (u : string) (bs : list BrokerInfo) :
  existsb (has_uri u) bs = existsb (fun v => String.eqb v u) (map uri bs).
Proof.
  induction bs as [|b bs IH]; cbn; [reflexivity|]. rewrite IH. reflexivity.
Qed.

Lemma filter_filter_and (P Q : string -> bool) (l : list string) :
  filter P (filter Q l) = filter (fun v => Q v && P v) l.
Proof.
  induction l as [|x l IH]; cbn; [reflexivity|].
  destruct (Q x); cbn; [destruct (P x)|]; rewrite IH; reflexivity.
Qed.

Lemma add_all_uris (timed : list (string * time_point)) :
  forall m : BrokerListManager,
    get_broker_uris
      (fold_left (fun m' ut => add_broker (fst ut) (snd ut) m') timed m)
    = get_broker_uris m
      ++ filter (fun v => negb (existsb (fun x => String.eqb x v)
                                  (get_broker_uris m)))
           (first_occurrences (map fst timed)).
Proof.
  induction timed as [|[u t] timed IH]; intro m.
  - cbn. rewrite app_nil_r. reflexivity.
  - cbn [fold_left map first_occurrences fst snd]. rewrite IH.
    unfold add_broker, get_broker_uris.
    rewrite existsb_has_uri_uris.
    cbn [filter].
    destruct (existsb (fun v => String.eqb v u) (map uri (brokers_ m))) eqn:E.
    + cbn [negb]. f_equal. rewrite filter_filter_and.
      apply filter_ext. intro v.
      destruct (String.eqb v u) eqn:Ev; cbn; [|reflexivity].
      apply String.eqb_eq in Ev. subst v. rewrite E. reflexivity.
    + cbn [negb brokers_]. rewrite map_app. cbn [map uri new_BrokerInfo].
      rewrite <- app_assoc. cbn [app]. do 2 f_equal.
      rewrite filter_filter_and. apply filter_ext. intro v.
      rewrite existsb_app. cbn [existsb].
      rewrite (String.eqb_sym u v), orb_false_r, negb_orb, andb_comm.
      reflexivity.
Qed.

Lemma add_all_index (timed : list (string * time_point)) :
  forall m : BrokerListManager,
    current_broker_index_ m = 0 ->
    current_broker_index_
      (fold_left (fun m' ut => add_broker (fst ut) (snd ut) m') timed m) = 0.
Proof.
  induction timed as [|[u t] timed IH]; intros m H; [exact H|].
  cbn [fold_left fst snd]. apply IH. unfold add_broker.
  destruct (existsb (has_uri u) (brokers_ m)); [exact H|].
  cbn. destruct (_ =? 1); [reflexivity | exact H].
Qed.

(** X11. After [set_brokers L] the registered URIs are the URIs of [L] in
    order, each repeated URI kept at its first place only; the records are
    fresh (no earlier record, metric or availability survives); and the
    current broker is the first URI of [L] (none when [L] is empty). *)
Theorem set_brokers_uris (timed : list (string * time_point))
  (s : SelfAdaptiveMqttManager) :
  let m' := broker_manager_ (set_brokers timed s) in
  get_broker_uris m' = first_occurrences (map fst timed)
  /\ current_broker_index_ m' = 0
  /\ get_current_broker_uri m' = hd ""%string (map fst timed)
  /\ (forall b, In b (brokers_ m') ->
        exists t, In (uri b, t) timed /\ b = new_BrokerInfo (uri b) t).
Proof.
  cbn zeta. unfold set_brokers. cbn [broker_manager_ set_broker_manager].
  set (m0 := clear_brokers (broker_manager_ s)).
  assert (Huris : get_broker_uris
                    (fold_left (fun m' ut => add_broker (fst ut) (snd ut) m')
                       timed m0)
                  = first_occurrences (map fst timed)).
  { rewrite add_all_uris. cbn.
    clear. induction (first_occurrences (map fst timed)) as [|x l IH];
      cbn; congruence. }
  assert (Hidx : current_broker_index_
                   (fold_left (fun m' ut => add_broker (fst ut) (snd ut) m')
                      timed m0) = 0).
  { apply add_all_index. reflexivity. }
  split; [exact Huris|]. split; [exact Hidx|]. split.
  - unfold get_current_broker_uri, get_current_broker. rewrite Hidx.
    unfold get_broker_uris in Huris.
    destruct (brokers_ _) as [|b bs]; cbn in Huris |- *.
    + destruct timed as [|[u t] timed]; [reflexivity | discriminate Huris].
    + destruct timed as [|[u t] timed]; [discriminate Huris|].
      cbn in Huris |- *. congruence.
  - assert (H : forall (l : list (string * time_point)) m b,
               In b (brokers_ (fold_left
                        (fun m' ut => add_broker (fst ut) (snd ut) m') l m)) ->
               In b (brokers_ m)
               \/ exists t, In (uri b, t) l /\ b = new_BrokerInfo (uri b) t).
    { induction l as [|[u t] l IHl]; intros m b Hb; [left; exact Hb|].
      cbn [fold_left fst snd] in Hb. apply IHl in Hb as [Hb | (t' & Ht & Eb)].
      - unfold add_broker in Hb.
        destruct (existsb (has_uri u) (brokers_ m)); [left; exact Hb|].
        cbn [brokers_] in Hb. apply in_app_or in Hb as [Hb | [<- | []]].
        + left. exact Hb.
        + right. exists t. split; [left|]; reflexivity.
      - right. exists t'. split; [right; exact Ht | exact Eb]. }
    intros b Hb. apply H in Hb as [[] | Hb]. exact Hb.
Qed.

(** [set_brokers] on a list with a repeated URI. *)
Example set_brokers_drops_repetitions :
  get_broker_uris
    (broker_manager_
       (set_brokers [("a"%string, 0); ("b"%string, 1); ("a"%string, 2);
                     ("c"%string, 3); ("b"%string, 4)]
          (new_SelfAdaptiveMqttManager "sensor")))
  = ["a"%string; "b"%string; "c"%string].
Proof. reflexivity. Qed.

Lemma set_brokers_uris_witness :
  let timed := [("a"%string, 0); ("b"%string, 1); ("a"%string, 2)] in
  let m' := broker_manager_ (set_brokers timed (new_SelfAdaptiveMqttManager "sensor")) in
  In (new_BrokerInfo "b" 1) (brokers_ m')
  /\ exists t, In (uri (new_BrokerInfo "b" 1), t) timed
               /\ new_BrokerInfo "b" 1 = new_BrokerInfo (uri (new_BrokerInfo "b" 1)) t.
Proof.
  intros timed m'.
  assert (H : In (new_BrokerInfo "b" 1) (brokers_ m')) by (cbn; right; left; reflexivity).
  split; [exact H|].
  exact (proj2 (proj2 (proj2 (set_brokers_uris timed
                                (new_SelfAdaptiveMqttManager "sensor"))))
           (new_BrokerInfo "b" 1) H).
Defined.

(** * Invariants of the running manager *)

Lemma registry_degrades_refl (m : BrokerListManager) : registry_degrades m m.
Proof. split; auto. Qed.

Lemma registry_degrades_trans (m1 m2 m3 : BrokerListManager) :
  registry_degrades m1 m2 -> registry_degrades m2 m3 -> registry_degrades m1 m3.
Proof.
  intros [H1 H2] [H3 H4]. split; [congruence | auto].
Qed.

Lemma mark_unavailable_degrades (u : string) (m : BrokerListManager) :
  registry_degrades m (mark_broker_unavailable u m).
Proof.
  split; [apply mark_broker_unavailable_uris|].
  intros v. apply mark_unavailable_keeps.
Qed.

Lemma set_current_degrades (u : string) (m : BrokerListManager) :
  registry_degrades m (fst (set_current_broker u m)).
Proof.
  unfold set_current_broker, registry_degrades, get_broker_uris,
    is_broker_available.
  destruct (find_index u (brokers_ m)); cbn; auto.
Qed.

Lemma update_metrics_degrades (u : string) (lat bw : Q) (cc : Z)
  (now : time_point) (m : BrokerListManager) :
  registry_degrades m (update_broker_metrics u lat bw cc now m).
Proof.
  unfold registry_degrades, get_broker_uris, is_broker_available,
    update_broker_metrics, with_brokers. cbn [brokers_].
  assert (Hf : forall b,
             uri (update_score (category_weights (category_ m))
                    (mkBrokerInfo (uri b) lat bw cc (score b)
                       (is_available b) now)) = uri b).
  { intro b. rewrite update_score_uri. reflexivity. }
  split; [apply update_first_uris, Hf|].
  intros v. rewrite (find_update_first u v _ _ Hf).
  destruct (String.eqb v u) eqn:Ev; [|auto].
  apply String.eqb_eq in Ev. subst v.
  destruct (find (has_uri u) (brokers_ m)) as [b|]; [|auto].
  cbn. rewrite update_score_available. auto.
Qed.

Lemma keeps_invariants_refl (s : SelfAdaptiveMqttManager) : keeps_invariants s s.
Proof. split; [apply registry_degrades_refl | auto]. Qed.

Lemma keeps_invariants_trans (s1 s2 s3 : SelfAdaptiveMqttManager) :
  keeps_invariants s1 s2 -> keeps_invariants s2 s3 -> keeps_invariants s1 s3.
Proof.
  intros [H1 H2] [H3 H4]. split; [|auto].
  eapply registry_degrades_trans; eassumption.
Qed.

Lemma keeps_invariants_step (s s' : SelfAdaptiveMqttManager) :
  registry_degrades (broker_manager_ s) (broker_manager_ s') ->
  length (message_queue_ s') <= length (message_queue_ s) ->
  keeps_invariants s s'.
Proof.
  intros Hr Hq. split; [exact Hr|].
  unfold queue_within_bound. lia.
Qed.

Section RunningManager.

Variable mqtt_connect : string -> connect_result.
Variable mqtt_publish : list (string * publish_args) -> string -> publish_args -> bool.

Lemma resend_loop_shrinks (c : option string) (q : list QueuedMessage) :
  forall trace q' trace',
    resend_loop mqtt_publish c q trace = Ret (q', trace') ->
    length q' <= length q.
Proof.
  induction q as [|msg q IH]; intros trace q' trace'; cbn.
  - intro H. injection H as <- _. cbn. lia.
  - destruct c as [u|]; [|discriminate].
    destruct (mqtt_publish trace u (args_of msg)).
    + intro H. apply IH in H. lia.
    + intro H. injection H as <- _. cbn. lia.
Qed.

Lemma resend_keeps (s s' : SelfAdaptiveMqttManager) :
  resend_queued_messages mqtt_publish s = Ret s' ->
  keeps_invariants s s'
  /\ is_connected_ s' = is_connected_ s /\ is_connecting_ s' = is_connecting_ s.
Proof.
  unfold resend_queued_messages.
  destruct (resend_loop mqtt_publish (client_ s) (message_queue_ s) (delivered_ s))
    as [[q' t']| |] eqn:E; cbn; try discriminate.
  intro H. injection H as <-. split; [|split; reflexivity].
  apply keeps_invariants_step; [apply registry_degrades_refl|].
  cbn. eapply resend_loop_shrinks; eassumption.
Qed.

Lemma connected_to_keeps (target : string) (i : nat) (s : SelfAdaptiveMqttManager) :
  keeps_invariants s (connected_to target i s).
Proof.
  apply keeps_invariants_step; [apply set_current_degrades | cbn; lia].
Qed.

Lemma connected_create_keeps (target : string) (i : nat)
  (s : SelfAdaptiveMqttManager) :
  keeps_invariants s (connected_to target i (create_client target s)).
Proof.
  apply keeps_invariants_step; [apply set_current_degrades | cbn; lia].
Qed.

Lemma try_connect_keeps (u : string) (s : SelfAdaptiveMqttManager) :
  broker_manager_ (fst (try_connect_to_broker mqtt_connect u s)) = broker_manager_ s
  /\ message_queue_ (fst (try_connect_to_broker mqtt_connect u s)) = message_queue_ s
  /\ is_connected_ (fst (try_connect_to_broker mqtt_connect u s)) = is_connected_ s
  /\ is_connecting_ (fst (try_connect_to_broker mqtt_connect u s)) = is_connecting_ s
  /\ current_broker_try_index_ (fst (try_connect_to_broker mqtt_connect u s))
     = current_broker_try_index_ s.
Proof.
  unfold try_connect_to_broker. destruct (mqtt_connect u); cbn; auto.
Qed.

Lemma connect_loop_keeps (uris : list string) :
  forall i s s' b,
    connect_loop mqtt_connect mqtt_publish uris i s = Ret (s', b) ->
    keeps_invariants s s'
    /\ is_connecting_ s' = false
    /\ (is_connected_ s = false -> is_connected_ s' = b).
Proof.
  induction uris as [|v uris IH]; intros i s s' b; cbn [connect_loop].
  - intro H. injection H as <- <-. split; [|split; auto].
    apply keeps_invariants_step; [apply registry_degrades_refl | cbn; lia].
  - destruct (try_connect_cases mqtt_connect v s) as [[c ->] | ->].
    + intro H. apply IH in H as (Hk & Hg & Hc). split; [|split; auto].
      eapply keeps_invariants_trans; [|exact Hk].
      apply keeps_invariants_step; [apply mark_unavailable_degrades | cbn; lia].
    + destruct (resend_queued_messages mqtt_publish
                  (connected_to v i (create_client v s))) as [s2| |] eqn:E;
        cbn; try discriminate.
      intro H. injection H as <- <-.
      apply resend_keeps in E as (Hk & Hc & Hg). cbn in Hc, Hg.
      split; [|split; auto].
      eapply keeps_invariants_trans; [|exact Hk].
      apply keeps_invariants_step; [apply set_current_degrades | cbn; lia].
Qed.

Lemma connect_keeps (s s' : SelfAdaptiveMqttManager) (b : bool) :
  connect mqtt_connect mqtt_publish s = Ret (s', b) ->
  keeps_invariants s s'
  /\ is_connected_ s' = b
  /\ (is_connecting_ s = false -> is_connecting_ s' = false).
Proof.
  unfold connect.
  destruct (is_connected_ s) eqn:Ec; cbn [orb].
  - intro H. injection H as <- <-. split; [apply keeps_invariants_refl | auto].
  - destruct (is_connecting_ s) eqn:Eg.
    + intro H. injection H as <- <-.
      split; [apply keeps_invariants_refl | split; [auto | discriminate]].
    + destruct (available_uris (broker_manager_ (set_is_connecting true s)))
        as [|v vs] eqn:Ev.
      * intro H. injection H as <- <-.
        split; [|split; auto].
        apply keeps_invariants_step; [apply registry_degrades_refl | cbn; lia].
      * intro H. apply connect_loop_keeps in H as (Hk & Hg & Hc).
        split; [|split; auto].
        destruct Hk as [Hr Hq]. split; [exact Hr | exact Hq].
Qed.

Lemma handle_connection_failure_keeps (fuel : nat) :
  forall failed_uri s s',
    handle_connection_failure mqtt_connect mqtt_publish fuel failed_uri s = Ret s' ->
    keeps_invariants s s'
    /\ (is_connected_ s = true -> is_connected_ s' = true)
    /\ ((forall v, mqtt_connect v <> connect_succeeds) ->
        is_connected_ s' = is_connected_ s).
Proof.
  induction fuel as [|fuel IH]; intros failed_uri s s'; [discriminate|].
  cbn [handle_connection_failure].
  set (s1 := set_broker_manager
               (mark_broker_unavailable failed_uri (broker_manager_ s)) s).
  assert (H1 : keeps_invariants s s1).
  { apply keeps_invariants_step; [apply mark_unavailable_degrades | cbn; lia]. }
  destruct (available_uris (broker_manager_ s1)) as [|v vs].
  - intro H. injection H as <-. split; [exact H1 | auto].
  - destruct (current_broker_try_index_ s1 <? length (v :: vs)).
    + set (next_uri := nth (current_broker_try_index_ s1) (v :: vs) ""%string).
      pose proof (try_connect_cases mqtt_connect next_uri s1) as Hcases.
      destruct Hcases as [[c Hc] | Hc]; rewrite Hc.
      * intro H. apply IH in H as (Hk & Hm & Hn).
        split; [|split].
        -- eapply keeps_invariants_trans; [exact H1|].
           eapply keeps_invariants_trans; [|exact Hk].
           apply keeps_invariants_step; [apply registry_degrades_refl | cbn; lia].
        -- exact Hm.
        -- exact Hn.
      * intro H. apply resend_keeps in H as (Hk & Hcon & Hg). cbn in Hcon.
        split; [|split].
        -- eapply keeps_invariants_trans; [exact H1|].
           eapply keeps_invariants_trans; [|exact Hk].
           apply connected_create_keeps.
        -- auto.
        -- intro Hnone. exfalso.
           unfold try_connect_to_broker in Hc.
           specialize (Hnone next_uri).
           destruct (mqtt_connect next_uri); try discriminate Hc. auto.
    + intro H. injection H as <-. split; [|auto].
      eapply keeps_invariants_trans; [exact H1|].
      apply keeps_invariants_step; [apply registry_degrades_refl | cbn; lia].
Qed.

Lemma switch_keeps (s s' : SelfAdaptiveMqttManager) :
  switch_to_best_broker mqtt_connect mqtt_publish s = Ret s' ->
  keeps_invariants s s'
  /\ (is_connected_ s = true -> is_connected_ s' = true)
  /\ ((forall v, mqtt_connect v <> connect_succeeds) ->
      is_connected_ s' = is_connected_ s)
  /\ (is_connecting_ s = false -> is_connecting_ s' = false).
Proof.
  unfold switch_to_best_broker.
  destruct (is_connecting_ s) eqn:Eg.
  - intro H. injection H as <-.
    split; [apply keeps_invariants_refl|]. repeat split; auto. discriminate.
  - set (s1 := destroy_client (set_is_connecting true s)).
    destruct (available_uris (broker_manager_ s1)) as [|v vs].
    + intro H. injection H as <-. split; [|repeat split; auto].
      apply keeps_invariants_step; [apply registry_degrades_refl | cbn; lia].
    + set (s2 := if length (v :: vs) <=? current_broker_try_index_ s1
                 then set_try_index 0 s1 else s1).
      assert (H2 : keeps_invariants s s2 /\ is_connected_ s2 = is_connected_ s).
      { unfold s2. destruct (_ <=? _); split; try reflexivity;
          (apply keeps_invariants_step; [apply registry_degrades_refl | cbn; lia]). }
      destruct H2 as [H2 Hc2].
      set (target_uri := nth (current_broker_try_index_ s2) (v :: vs) ""%string).
      pose proof (try_connect_cases mqtt_connect target_uri s2) as Hcases.
      destruct Hcases as [[c Hc] | Hc]; rewrite Hc.
      * destruct (handle_connection_failure mqtt_connect mqtt_publish _ _ _)
          as [s4| |] eqn:E; cbn; try discriminate.
        intro H. injection H as <-.
        apply handle_connection_failure_keeps in E as (Hk & Hm & Hn).
        cbn in Hm, Hn. rewrite Hc2 in Hm, Hn.
        split; [|repeat split; auto].
        eapply keeps_invariants_trans; [exact H2|].
        eapply keeps_invariants_trans;
          [|eapply keeps_invariants_trans; [exact Hk|]].
        -- apply keeps_invariants_step; [apply registry_degrades_refl | cbn; lia].
        -- apply keeps_invariants_step; [apply registry_degrades_refl | cbn; lia].
      * intro H. apply resend_keeps in H as (Hk & Hcon & Hg). cbn in Hcon, Hg.
        split; [|repeat split; auto].
        -- eapply keeps_invariants_trans; [exact H2|].
           eapply keeps_invariants_trans; [|exact Hk].
           apply connected_create_keeps.
        -- intro Hnone. exfalso.
           unfold try_connect_to_broker in Hc.
           specialize (Hnone target_uri).
           destruct (mqtt_connect target_uri); try discriminate Hc. auto.
Qed.

End RunningManager.

Section RunningEvents.

Variable mqtt_connect : string -> connect_result.
Variable mqtt_publish : list (string * publish_args) -> string -> publish_args -> bool.

Lemma on_broker_switch_keeps (u : string) (s s' : SelfAdaptiveMqttManager) :
  on_broker_switch mqtt_connect mqtt_publish u s = Ret s' ->
  keeps_invariants s s'.
Proof.
  unfold on_broker_switch.
  destruct (should_switch_broker (broker_manager_ s)).
  - intro H. apply switch_keeps in H as [H _]. exact H.
  - intro H. injection H as <-. apply keeps_invariants_refl.
Qed.

Lemma on_metrics_updated_keeps (s s' : SelfAdaptiveMqttManager) :
  on_metrics_updated mqtt_connect mqtt_publish s = Ret s' ->
  keeps_invariants s s'.
Proof.
  unfold on_metrics_updated.
  destruct (should_switch_broker (broker_manager_ s)).
  - destruct (find_best_broker (broker_manager_ s)) as [b|].
    + apply on_broker_switch_keeps.
    + intro H. injection H as <-. apply keeps_invariants_refl.
  - intro H. injection H as <-. apply keeps_invariants_refl.
Qed.

Lemma measured_keeps (u : string) (lat bw : Q) (cc : Z) (now : time_point)
  (s s' : SelfAdaptiveMqttManager) :
  on_metrics_updated mqtt_connect mqtt_publish
    (set_broker_manager
       (update_broker_metrics u lat bw cc now (broker_manager_ s)) s) = Ret s' ->
  keeps_invariants s s'.
Proof.
  intro H. apply on_metrics_updated_keeps in H.
  eapply keeps_invariants_trans; [|exact H].
  apply keeps_invariants_step; [apply update_metrics_degrades | cbn; lia].
Qed.

Lemma publish_keeps (t p : string) (q : Z) (r : bool) (now : time_point)
  (s s' : SelfAdaptiveMqttManager) (tok : option delivery_token) :
  publish mqtt_publish t p q r now s = Ret (s', tok) ->
  keeps_invariants s s'.
Proof.
  assert (Hq : keeps_invariants s (add_message_to_queue t p q r now s)).
  { split; [apply registry_degrades_refl|].
    unfold queue_within_bound. cbn. apply enqueue_bounded. }
  unfold publish. destruct (negb (is_connected_ s)).
  - intro H. injection H as <- _. exact Hq.
  - destruct (client_ s) as [u|]; [|discriminate].
    destruct (mqtt_publish (delivered_ s) u (t, p, q, r)).
    + intro H. injection H as <- _.
      apply keeps_invariants_step; [apply registry_degrades_refl | cbn; lia].
    + intro H. injection H as <- _. exact Hq.
Qed.

Lemma run_event_keeps (e : manager_event) (s s' : SelfAdaptiveMqttManager) :
  run_event mqtt_connect mqtt_publish e s = Ret s' -> keeps_invariants s s'.
Proof.
  destruct e as [o u now | o u now | o u now | | | t p q r now | ];
    cbn [run_event].
  - unfold measure_latency. destruct o as [lat|].
    + destruct (find_broker u (broker_manager_ s)) as [b|].
      * apply measured_keeps.
      * intro H. injection H as <-. apply keeps_invariants_refl.
    + intro H. injection H as <-.
      apply keeps_invariants_step; [apply mark_unavailable_degrades | cbn; lia].
  - unfold measure_bandwidth. destruct o as [bw|].
    + destruct (find_broker u (broker_manager_ s)) as [b|].
      * apply measured_keeps.
      * intro H. injection H as <-. apply keeps_invariants_refl.
    + intro H. injection H as <-.
      apply keeps_invariants_step; [apply mark_unavailable_degrades | cbn; lia].
  - unfold check_connection_count. destruct o as [cc|].
    + destruct (find_broker u (broker_manager_ s)) as [b|].
      * apply measured_keeps.
      * intro H. injection H as <-. apply keeps_invariants_refl.
    + intro H. injection H as <-. apply keeps_invariants_refl.
  - destruct (connect mqtt_connect mqtt_publish s) as [[s1 b]| |] eqn:E;
      cbn; try discriminate.
    intro H. injection H as <-. apply connect_keeps in E as [E _]. exact E.
  - intro H. injection H as <-.
    apply keeps_invariants_step; [apply registry_degrades_refl | cbn; lia].
  - destruct (publish mqtt_publish t p q r now s) as [[s1 tok]| |] eqn:E;
      cbn; try discriminate.
    intro H. injection H as <-. eapply publish_keeps; eassumption.
  - unfold connection_lost. intro H. apply switch_keeps in H as [H _].
    eapply keeps_invariants_trans; [|exact H].
    apply keeps_invariants_step; [apply registry_degrades_refl | cbn; lia].
Qed.

Lemma run_events_keeps (es : list manager_event) :
  forall s s',
    run_events mqtt_connect mqtt_publish es s = Ret s' -> keeps_invariants s s'.
Proof.
  induction es as [|e es IH]; intros s s'; cbn [run_events].
  - intro H. injection H as <-. apply keeps_invariants_refl.
  - destruct (run_event mqtt_connect mqtt_publish e s) as [s1| |] eqn:E;
      cbn; try discriminate.
    intro H. eapply keeps_invariants_trans.
    + eapply run_event_keeps; eassumption.
    + apply IH, H.
Qed.

(** X12. While the manager runs (measurements of the monitor, connect,
    disconnect, publish, connection lost, and the broker switches they
    trigger), the registered URIs never change and no broker that is
    unavailable becomes available again: nothing on these paths calls
    [mark_broker_available], and a successful measurement updates the
    metrics of an unavailable broker without restoring it. *)
Theorem unavailable_brokers_stay_unavailable (es : list manager_event)
  (s s' : SelfAdaptiveMqttManager) :
  run_events mqtt_connect mqtt_publish es s = Ret s' ->
  get_broker_uris (broker_manager_ s') = get_broker_uris (broker_manager_ s)
  /\ (forall v, is_broker_available v (broker_manager_ s) = false ->
        is_broker_available v (broker_manager_ s') = false).
Proof.
  intro H. apply run_events_keeps in H as [H _]. exact H.
Qed.

(** X13. While the manager runs, the offline queue stays within its
    bound: if it holds at most 1000 messages before a run of events, it
    holds at most 1000 after it. *)
Theorem offline_queue_stays_bounded (es : list manager_event)
  (s s' : SelfAdaptiveMqttManager) :
  length (message_queue_ s) <= 1000 ->
  run_events mqtt_connect mqtt_publish es s = Ret s' ->
  length (message_queue_ s') <= 1000.
Proof.
  intros Hq H. apply run_events_keeps in H as [_ H]. apply H, Hq.
Qed.

(** X14. [switch_to_best_broker] never clears the connected flag: a
    manager that reported connected before the call reports connected after
    it, and when no broker accepts the connection the flag is left as it
    was. A call that was not blocked by a connection attempt in progress
    leaves no attempt in progress. *)
Theorem switch_keeps_connected_flag (s s' : SelfAdaptiveMqttManager) :
  switch_to_best_broker mqtt_connect mqtt_publish s = Ret s' ->
  (is_connected_ s = true -> is_connected_ s' = true)
  /\ ((forall v, mqtt_connect v <> connect_succeeds) ->
      is_connected_ s' = is_connected_ s)
  /\ (is_connecting_ s = false -> is_connecting_ s' = false).
Proof.
  intro H. apply switch_keeps in H as (_ & H). exact H.
Qed.

(** X15. The value [connect] returns is the connected flag it leaves
    behind, in every case; and a call that found no attempt in progress
    leaves none. *)
Theorem connect_returns_connected_flag (s s' : SelfAdaptiveMqttManager)
  (b : bool) :
  connect mqtt_connect mqtt_publish s = Ret (s', b) ->
  is_connected_ s' = b
  /\ (is_connecting_ s = false -> is_connecting_ s' = false).
Proof.
  intro H. apply connect_keeps in H as (_ & H). exact H.
Qed.

End RunningEvents.

Lemma unavailable_brokers_stay_unavailable_witness :
  let s := set_brokers [("A"%string, 0); ("B"%string, 1); ("C"%string, 2)]
             (new_SelfAdaptiveMqttManager "sensor") in
  let s0 := result_or (run_events only_B_connects accepts_every_publish
                         [ev_latency None "A" 3] s) s in
  let es := [ev_latency (Some 10%Q) "A" 4; ev_bandwidth (Some 2000000%Q) "A" 5;
             ev_connect; ev_publish "t" "p" 1%Z false 6; ev_connection_lost] in
  let s' := result_or (run_events only_B_connects accepts_every_publish es s0) s0 in
  run_events only_B_connects accepts_every_publish es s0 = Ret s'
  /\ is_broker_available "A" (broker_manager_ s0) = false
  /\ get_broker_uris (broker_manager_ s') = get_broker_uris (broker_manager_ s0)
  /\ is_broker_available "A" (broker_manager_ s') = false.
Proof.
  intros s s0 es s'.
  assert (Hrun : run_events only_B_connects accepts_every_publish es s0 = Ret s')
    by (vm_compute; reflexivity).
  assert (Ha : is_broker_available "A" (broker_manager_ s0) = false)
    by (vm_compute; reflexivity).
  split; [exact Hrun|]. split; [exact Ha|].
  destruct (unavailable_brokers_stay_unavailable only_B_connects
              accepts_every_publish es s0 s' Hrun) as [Hu Hav].
  split; [exact Hu | exact (Hav "A"%string Ha)].
Defined.

Lemma offline_queue_stays_bounded_witness :
  let s := set_brokers [("A"%string, 0)] (new_SelfAdaptiveMqttManager "sensor") in
  let es := [ev_publish "t" "p1" 1%Z false 1; ev_connect;
             ev_publish "t" "p2" 1%Z false 2] in
  let s' := result_or (run_events no_broker_connects accepts_every_publish es s) s in
  length (message_queue_ s) <= 1000
  /\ run_events no_broker_connects accepts_every_publish es s = Ret s'
  /\ length (message_queue_ s') <= 1000.
Proof.
  intros s es s'.
  assert (Hq : length (message_queue_ s) <= 1000) by (cbn; lia).
  assert (Hrun : run_events no_broker_connects accepts_every_publish es s = Ret s')
    by (vm_compute; reflexivity).
  split; [exact Hq|]. split; [exact Hrun|].
  exact (offline_queue_stays_bounded no_broker_connects accepts_every_publish
           es s s' Hq Hrun).
Defined.

Lemma switch_keeps_connected_flag_witness :
  let s := mkManager (Some "A"%string) registry_B_better true false [] 0 [] in
  let s' := result_or (switch_to_best_broker no_broker_connects
                         accepts_every_publish s) s in
  switch_to_best_broker no_broker_connects accepts_every_publish s = Ret s'
  /\ (forall v, no_broker_connects v <> connect_succeeds)
  /\ is_connected_ s = true
  /\ is_connected_ s' = true
  /\ available_uris (broker_manager_ s') = ["B"%string].
Proof.
  intros s s'.
  assert (Hrun : switch_to_best_broker no_broker_connects accepts_every_publish s
                 = Ret s') by (vm_compute; reflexivity).
  assert (Hnone : forall v, no_broker_connects v <> connect_succeeds)
    by (intro v; discriminate).
  split; [exact Hrun|]. split; [exact Hnone|]. split; [reflexivity|].
  split; [|vm_compute; reflexivity].
  exact (proj1 (switch_keeps_connected_flag no_broker_connects
                  accepts_every_publish s s' Hrun) eq_refl).
Defined.

Lemma connect_returns_connected_flag_witness :
  let s := set_brokers [("A"%string, 0); ("B"%string, 1)]
             (new_SelfAdaptiveMqttManager "sensor") in
  let r := result_or (connect only_B_connects accepts_every_publish s) (s, false) in
  connect only_B_connects accepts_every_publish s = Ret (fst r, snd r)
  /\ snd r = true
  /\ is_connected_ (fst r) = snd r.
Proof.
  intros s r.
  assert (Hrun : connect only_B_connects accepts_every_publish s
                 = Ret (fst r, snd r)) by (vm_compute; reflexivity).
  split; [exact Hrun|]. split; [vm_compute; reflexivity|].
  exact (proj1 (connect_returns_connected_flag only_B_connects
                  accepts_every_publish s (fst r) (snd r) Hrun)).
Defined.

(** * What the manager never does, and what it delivers *)

Section Delivery.

Variable mqtt_connect : string -> connect_result.
Variable mqtt_publish : list (string * publish_args) -> string -> publish_args -> bool.

Lemma connect_loop_returns (uris : list string) :
  forall i s, exists r, connect_loop mqtt_connect mqtt_publish uris i s = Ret r.
Proof.
  induction uris as [|v uris IH]; intros i s; cbn [connect_loop]; [eauto|].
  destruct (try_connect_cases mqtt_connect v s) as [[c ->] | ->].
  - apply IH.
  - destruct (resend_with_client_returns mqtt_publish
                (connected_to v i (create_client v s)) v eq_refl) as [s2 ->].
    cbn. eauto.
Qed.

Lemma connect_returns (s : SelfAdaptiveMqttManager) :
  exists r, connect mqtt_connect mqtt_publish s = Ret r.
Proof.
  unfold connect. destruct (is_connected_ s || is_connecting_ s); [eauto|].
  destruct (available_uris _); [eauto | apply connect_loop_returns].
Qed.

Lemma on_broker_switch_returns (u : string) (s : SelfAdaptiveMqttManager) :
  exists s', on_broker_switch mqtt_connect mqtt_publish u s = Ret s'.
Proof.
  unfold on_broker_switch. destruct (should_switch_broker _); [|eauto].
  apply switch_to_best_broker_returns.
Qed.

Lemma on_metrics_updated_returns (s : SelfAdaptiveMqttManager) :
  exists s', on_metrics_updated mqtt_connect mqtt_publish s = Ret s'.
Proof.
  unfold on_metrics_updated. destruct (should_switch_broker _); [|eauto].
  destruct (find_best_broker _); [apply on_broker_switch_returns | eauto].
Qed.

(** X16. No connection path dereferences an empty [client_], and the
    recursion of [handle_connection_failure] ends: [connect],
    [switch_to_best_broker], [on_broker_switch], the connection-lost
    callback and the three measurements of the monitor always return. The
    one dereference of an empty client is in [publish], exactly when the
    manager reports connected while it holds no client. *)
Theorem only_publish_can_dereference_null (s : SelfAdaptiveMqttManager) :
  (exists r, connect mqtt_connect mqtt_publish s = Ret r)
  /\ (exists s', switch_to_best_broker mqtt_connect mqtt_publish s = Ret s')
  /\ (forall u, exists s', on_broker_switch mqtt_connect mqtt_publish u s = Ret s')
  /\ (exists s', connection_lost mqtt_connect mqtt_publish s = Ret s')
  /\ (forall o u now,
        exists s', measure_latency mqtt_connect mqtt_publish o u now s = Ret s')
  /\ (forall o u now,
        exists s', measure_bandwidth mqtt_connect mqtt_publish o u now s = Ret s')
  /\ (forall o u now,
        exists s', check_connection_count mqtt_connect mqtt_publish o u now s
                   = Ret s')
  /\ (forall t p q r now,
        (publish mqtt_publish t p q r now s = NullClient
         <-> is_connected_ s = true /\ client_ s = None)
        /\ publish mqtt_publish t p q r now s <> OutOfFuel).
Proof.
  split; [apply connect_returns|].
  split; [apply switch_to_best_broker_returns|].
  split; [intro u; apply on_broker_switch_returns|].
  split; [apply switch_to_best_broker_returns|].
  split; [|split; [|split]].
  - intros [lat|] u now; unfold measure_latency; [|eauto].
    destruct (find_broker u _); [apply on_metrics_updated_returns | eauto].
  - intros [bw|] u now; unfold measure_bandwidth; [|eauto].
    destruct (find_broker u _); [apply on_metrics_updated_returns | eauto].
  - intros [cc|] u now; unfold check_connection_count; [|eauto].
    destruct (find_broker u _); [apply on_metrics_updated_returns | eauto].
  - intros t p q r now. unfold publish.
    destruct (is_connected_ s); cbn [negb].
    + destruct (client_ s) as [u|].
      * destruct (mqtt_publish (delivered_ s) u (t, p, q, r));
          (split; [split; [discriminate | intros [_ H]; discriminate H]
                  | discriminate]).
      * split; [tauto | discriminate].
    + split; [split; [discriminate | intros [H _]; discriminate H] | discriminate].
Qed.

Lemma resend_loop_accepting (u : string) (q : list QueuedMessage) :
  (forall trace a, mqtt_publish trace u a = true) ->
  forall trace,
    resend_loop mqtt_publish (Some u) q trace = Ret ([], trace ++ trace_of u q).
Proof.
  intro Hacc. induction q as [|msg q IH]; intro trace; cbn.
  - rewrite app_nil_r. reflexivity.
  - rewrite Hacc, IH, <- app_assoc. reflexivity.
Qed.

Lemma run_events_app (es1 es2 : list manager_event) :
  forall s,
    run_events mqtt_connect mqtt_publish (es1 ++ es2) s
    = bind (run_events mqtt_connect mqtt_publish es1 s)
        (run_events mqtt_connect mqtt_publish es2).
Proof.
  induction es1 as [|e es1 IH]; intro s; cbn; [reflexivity|].
  destruct (run_event mqtt_connect mqtt_publish e s); cbn; auto.
Qed.

Lemma publish_events_queue (msgs : list QueuedMessage) :
  forall s,
    is_connected_ s = false ->
    run_events mqtt_connect mqtt_publish (map publish_event msgs) s
    = Ret (set_message_queue (enqueue_all msgs (message_queue_ s)) s).
Proof.
  induction msgs as [|msg msgs IH]; intros s Hc.
  - cbn. destruct s; reflexivity.
  - cbn [map run_events run_event publish_event]. unfold publish.
    rewrite Hc. cbn [negb bind fst].
    rewrite IH by exact Hc. f_equal. destruct msg; reflexivity.
Qed.

(** X17. Messages published while the manager is disconnected reach the
    next broker in publish order: on a disconnected manager with an empty
    queue, publishing the messages of [msgs] one after the other and then
    calling [connect], which reaches [target] after the brokers of [failed]
    failed, hands to the client of [target], if it accepts every publish,
    exactly the last 1000 messages of [msgs] in their order, and leaves the
    queue empty. *)
Theorem queued_publishes_delivered_in_order (s : SelfAdaptiveMqttManager)
  (msgs : list QueuedMessage) (failed : list string) (target : string)
  (rest : list string) :
  is_connected_ s = false -> is_connecting_ s = false ->
  message_queue_ s = [] ->
  available_uris (broker_manager_ s) = failed ++ target :: rest ->
  (forall v, In v failed -> mqtt_connect v <> connect_succeeds) ->
  mqtt_connect target = connect_succeeds ->
  (forall trace a, mqtt_publish trace target a = true) ->
  exists s',
    run_events mqtt_connect mqtt_publish
      (map publish_event msgs ++ [ev_connect]) s = Ret s'
    /\ is_connected_ s' = true
    /\ message_queue_ s' = []
    /\ delivered_ s'
       = delivered_ s ++ trace_of target (skipn (length msgs - 1000) msgs).
Proof.
  intros Hc Hg Hq Hav Hfail Hok Hacc.
  rewrite run_events_app, (publish_events_queue msgs s Hc). cbn [bind].
  rewrite Hq, enqueue_all_skipn by (cbn; lia). cbn [app].
  set (q := skipn (length msgs - MAX_QUEUE_SIZE) msgs).
  set (s1 := set_message_queue q s).
  cbn [run_events run_event]. unfold connect.
  change (is_connected_ s1) with (is_connected_ s).
  change (is_connecting_ s1) with (is_connecting_ s).
  rewrite Hc, Hg. cbn [orb].
  change (broker_manager_ (set_is_connecting true s1)) with (broker_manager_ s).
  rewrite Hav.
  destruct (connect_loop_success mqtt_connect mqtt_publish failed 0
              (set_is_connecting true s1) target rest Hfail Hok)
    as (s' & Hrun & _ & Hcon & _ & _ & _ & Hres).
  assert (Hloop : match failed ++ target :: rest with
                  | [] => Ret (set_is_connecting false (set_is_connecting true s1), false)
                  | _ :: _ =>
                      connect_loop mqtt_connect mqtt_publish
                        (failed ++ target :: rest) 0 (set_is_connecting true s1)
                  end = Ret (s', true)).
  { destruct (failed ++ target :: rest) eqn:E; [|exact Hrun].
    destruct failed; discriminate E. }
  rewrite Hloop. cbn [bind fst]. exists s'. split; [reflexivity|].
  split; [exact Hcon|].
  cbn [message_queue_ delivered_ set_is_connecting set_message_queue s1] in Hres.
  rewrite (resend_loop_accepting target q Hacc) in Hres.
  injection Hres as Hq' Hd'. split; [symmetry; exact Hq'|].
  rewrite <- Hd'. reflexivity.
Qed.

End Delivery.

Lemma queued_publishes_delivered_in_order_witness :
  let s := set_brokers [("A"%string, 0); ("B"%string, 1); ("C"%string, 2)]
             (new_SelfAdaptiveMqttManager "sensor") in
  let msgs := [numbered_message 1; numbered_message 2; numbered_message 3] in
  is_connected_ s = false /\ is_connecting_ s = false /\ message_queue_ s = []
  /\ available_uris (broker_manager_ s) = ["A"%string] ++ "B"%string :: ["C"%string]
  /\ (forall v, In v ["A"%string] -> only_B_connects v <> connect_succeeds)
  /\ only_B_connects "B" = connect_succeeds
  /\ (forall trace a, accepts_every_publish trace "B" a = true)
  /\ exists s',
       run_events only_B_connects accepts_every_publish
         (map publish_event msgs ++ [ev_connect]) s = Ret s'
       /\ is_connected_ s' = true
       /\ message_queue_ s' = []
       /\ delivered_ s'
          = delivered_ s ++ trace_of "B" (skipn (length msgs - 1000) msgs).
Proof.
  intros s msgs.
  assert (Hfail : forall v, In v ["A"%string] -> only_B_connects v <> connect_succeeds).
  { intros v [<- | []]. discriminate. }
  assert (Hacc : forall trace a, accepts_every_publish trace "B" a = true)
    by reflexivity.
  repeat (split; [first [reflexivity | exact Hfail | exact Hacc]|]).
  exact (queued_publishes_delivered_in_order only_B_connects accepts_every_publish
           s msgs ["A"%string] "B"%string ["C"%string]
           eq_refl eq_refl eq_refl eq_refl Hfail eq_refl Hacc).
Defined.

(** A state in which [publish] dereferences an empty client is within
    reach: [connect] settles on A at try index 1, the monitor then finds C
    better, and the switch to C fails in the client constructor. The
    manager still reports connected, holds no client, and the next
    [publish] faults. *)
Example publish_after_failed_switch_faults :
  let s := set_brokers [("X"%string, 0); ("A"%string, 1); ("C"%string, 2)]
             (new_SelfAdaptiveMqttManager "sensor") in
  let es := [ev_connect; ev_latency (Some 10%Q) "C" 3] in
  let s' := result_or (run_events only_A_connects_others_throw
                         accepts_every_publish es s) s in
  run_events only_A_connects_others_throw accepts_every_publish es s = Ret s'
  /\ is_connected_ s' = true /\ client_ s' = None
  /\ publish accepts_every_publish "t" "p" 1%Z false 4 s' = NullClient.
Proof.
  cbn zeta.
  split; [vm_compute; reflexivity|].
  split; [vm_compute; reflexivity|].
  split; vm_compute; reflexivity.
Qed.

(** * topic.cpp: split, to_string, matches *)

Lemma string_append_nil_r (s : string) : (s ++ "")%string = s.
Proof. induction s as [|a s IH]; cbn; congruence. Qed.

Lemma string_append_assoc (s1 s2 s3 : string) :
  ((s1 ++ s2) ++ s3)%string = (s1 ++ (s2 ++ s3))%string.
Proof. induction s1 as [|a s1 IH]; cbn; congruence. Qed.

Lemma string_length_append (s1 s2 : string) :
  String.length (s1 ++ s2) = String.length s1 + String.length s2.
Proof. induction s1 as [|a s1 IH]; cbn; congruence. Qed.

Lemma string_find_append (ch : Ascii.ascii) (pre rest : string) (k : nat) :
  string_find ch (pre ++ rest) (String.length pre + k)
  = option_map (fun p => String.length pre + p) (string_find ch rest k).
Proof.
  induction pre as [|a pre IH]; cbn.
  - destruct (string_find ch rest k); reflexivity.
  - rewrite IH. destruct (string_find ch rest k); reflexivity.
Qed.

Lemma substring_append (pre rest : string) (m : nat) :
  substring (String.length pre) m (pre ++ rest) = substring 0 m rest.
Proof. induction pre as [|a pre IH]; cbn; [reflexivity | exact IH]. Qed.

Lemma substring_whole (s : string) : substring 0 (String.length s) s = s.
Proof.
  induction s as [|a s IH]; cbn; [reflexivity | congruence].
Qed.

Lemma substring_prefix (f rest : string) :
  substring 0 (String.length f) (f ++ rest) = f.
Proof.
  induction f as [|a f IH]; cbn.
  - destruct rest; reflexivity.
  - congruence.
Qed.

(** A string is cut at its first '/', if it has one. *)
Lemma first_slash (s : string) :
  (string_find "/" s 0 = None /\ split_fields s = [s])
  \/ (exists f rest,
        s = (f ++ String "/" rest)%string
        /\ string_find "/" s 0 = Some (String.length f)
        /\ string_find "/" f 0 = None
        /\ split_fields s = f :: split_fields rest).
Proof.
  induction s as [|a s IH].
  - left. split; reflexivity.
  - cbn [string_find split_fields].
    destruct (Ascii.eqb a "/") eqn:E.
    + right. apply Ascii.eqb_eq in E. subst a.
      exists EmptyString, s. repeat split.
    + destruct IH as [[Hn Hs] | (f & rest & Hs & Hf & Hnf & Hsp)].
      * left. rewrite Hn, Hs. split; reflexivity.
      * right. exists (String a f), rest. rewrite Hf, Hsp.
        split; [cbn; congruence|]. split; [reflexivity|].
        split; [|reflexivity].
        cbn. rewrite E, Hnf. reflexivity.
Qed.

Lemma split_loop_fields (fuel : nat) :
  forall (pre rest : string) (v : list string),
    String.length rest < fuel ->
    topic.split_loop fuel (pre ++ rest) (String.length pre) v
    = Some (v ++ split_fields rest).
Proof.
  induction fuel as [|fuel IH]; intros pre rest v Hfuel; [lia|].
  cbn [topic.split_loop].
  pose proof (string_find_append "/" pre rest 0) as Hfind.
  rewrite Nat.add_0_r in Hfind. rewrite Hfind.
  unfold substr. rewrite string_length_append.
  replace (String.length pre + String.length rest <? String.length pre)
    with false by (symmetry; apply Nat.ltb_ge; lia).
  destruct (first_slash rest) as [[Hn Hs] | (f & rest' & Hs & Hf & Hnf & Hsp)].
  - rewrite Hn, Hs. cbn [option_map].
    replace (String.length pre + String.length rest - String.length pre)
      with (String.length rest) by lia.
    rewrite substring_append, substring_whole. reflexivity.
  - rewrite Hf, Hsp. cbn [option_map].
    replace (String.length pre + String.length f - String.length pre)
      with (String.length f) by lia.
    assert (Hsub : substring 0 (String.length f) rest = f)
      by (rewrite Hs; apply substring_prefix).
    rewrite substring_append, Hsub.
    rewrite Hs.
    replace (pre ++ f ++ String "/" rest')%string
      with ((pre ++ f ++ "/") ++ rest')%string
      by (rewrite !string_append_assoc; reflexivity).
    replace (String.length pre + String.length f + 1)
      with (String.length (pre ++ f ++ "/")%string)
      by (rewrite !string_length_append; cbn; lia).
    rewrite IH.
    + rewrite <- app_assoc. reflexivity.
    + rewrite Hs, string_length_append in Hfuel. cbn in Hfuel. lia.
Qed.

Lemma split_is_split_fields (s : string) :
  topic.split s = Some (match s with
                        | EmptyString => []
                        | _ => split_fields s
                        end).
Proof.
  destruct s as [|a s]; [reflexivity|].
  unfold topic.split.
  apply (split_loop_fields (S (String.length (String a s))) EmptyString
           (String a s) []).
  lia.
Qed.

Lemma split_fields_nonempty (s : string) : split_fields s <> [].
Proof.
  destruct s as [|a s]; cbn; [discriminate|].
  destruct (Ascii.eqb a "/"); [discriminate|].
  destruct (split_fields s); discriminate.
Qed.

Lemma split_fields_concat (s : string) : String.concat "/" (split_fields s) = s.
Proof.
  induction s as [|a s IH]; [reflexivity|].
  cbn [split_fields]. pose proof (split_fields_nonempty s) as Hne.
  destruct (Ascii.eqb a "/") eqn:E.
  - apply Ascii.eqb_eq in E. subst a.
    destruct (split_fields s) as [|f fs]; [contradiction|].
    change (String.concat "/" (EmptyString :: f :: fs))
      with (EmptyString ++ "/" ++ String.concat "/" (f :: fs))%string.
    rewrite IH. reflexivity.
  - destruct (split_fields s) as [|f fs]; [contradiction|].
    destruct fs as [|g fs]; cbn in IH |- *; congruence.
Qed.

Lemma split_fields_no_slash (s : string) :
  Forall (fun f => string_find "/" f 0 = None) (split_fields s).
Proof.
  induction s as [|a s IH]; cbn [split_fields].
  - constructor; [reflexivity | constructor].
  - destruct (Ascii.eqb a "/") eqn:E.
    + constructor; [reflexivity | exact IH].
    + destruct (split_fields s) as [|f fs].
      * constructor; [cbn; rewrite E; reflexivity | constructor].
      * inversion IH as [|x xs Hf Hfs]; subst.
        constructor; [|exact Hfs]. cbn. rewrite E, Hf. reflexivity.
Qed.

(** X18. [topic::split] always returns (its [substr] never throws): the
    empty string gives no field, any other string gives at least one; no
    field contains a '/', and the fields joined with '/' are the string
    that was split. *)
Theorem split_joins_back (s : string) :
  exists fields,
    topic.split s = Some fields
    /\ (fields = [] <-> s = EmptyString)
    /\ Forall (fun f => string_find "/" f 0 = None) fields
    /\ String.concat "/" fields = s.
Proof.
  rewrite split_is_split_fields. eexists. split; [reflexivity|].
  destruct s as [|a s].
  - split; [tauto|]. split; [constructor | reflexivity].
  - split; [|split; [apply split_fields_no_slash | apply split_fields_concat]].
    split; [|discriminate].
    intro H. exfalso. exact (split_fields_nonempty _ H).
Qed.

Lemma to_string_fold (l : list string) :
  forall (acc x : string),
    (fold_left (fun s field => s ++ field ++ "/") l acc ++ x)%string
    = (acc ++ String.concat "/" (l ++ [x]))%string.
Proof.
  induction l as [|f l IH]; intros acc x.
  - reflexivity.
  - cbn [fold_left app]. rewrite IH.
    replace (String.concat "/" (f :: l ++ [x]))
      with (f ++ "/" ++ String.concat "/" (l ++ [x]))%string.
    + rewrite !string_append_assoc. reflexivity.
    + cbn [String.concat]. destruct (l ++ [x]) eqn:E; [|reflexivity].
      destruct l; discriminate E.
Qed.

Lemma to_string_fields (fields : list string) :
  topic_filter.to_string (by_fields fields) = String.concat "/" fields.
Proof.
  unfold topic_filter.to_string.
  destruct fields as [|f fs]; [reflexivity|].
  rewrite to_string_fold. cbn [append].
  rewrite <- app_removelast_last by discriminate. reflexivity.
Qed.

(** X19. Constructing a [topic_filter] from a string and turning it back
    with [to_string] gives the same string, whether the filter is kept
    whole or as fields; the construction always succeeds, and it keeps
    fields exactly when the static [has_wildcards] finds a final '#' or a
    '+'. *)
Theorem filter_to_string_round_trip (filter : string) :
  exists f,
    topic_filter.make filter = Some f
    /\ topic_filter.to_string f = filter
    /\ topic_filter.holds_wildcards f = topic_filter.has_wildcards filter.
Proof.
  unfold topic_filter.make.
  destruct (topic_filter.has_wildcards filter) eqn:E.
  - rewrite split_is_split_fields. cbn [option_map]. eexists.
    split; [reflexivity|]. split; [|reflexivity].
    rewrite to_string_fields.
    destruct filter as [|a s]; [discriminate E|].
    apply split_fields_concat.
  - eexists. split; [reflexivity|]. split; reflexivity.
Qed.

Section MatchingFacts.

Variable is_wildcard : string -> bool.

Lemma nth_error_last (fields : list string) :
  fields <> [] ->
  nth_error fields (length fields - 1) = Some (last fields EmptyString).
Proof.
  induction fields as [|f fs IH]; [contradiction|]. intros _.
  destruct fs as [|g fs]; [reflexivity|].
  cbn [length]. replace (S (S (length fs)) - 1) with (S (length (g :: fs) - 1))
    by (cbn; lia).
  cbn [nth_error last]. apply IH. discriminate.
Qed.

Lemma match_loop_in_range (fields topic_fields : list string) :
  lengths_pass fields topic_fields ->
  forall fuel i,
    length fields - i <= fuel -> i <= length fields ->
    i <= length topic_fields ->
    exists b, topic_filter.match_loop fuel fields topic_fields i = Some b.
Proof.
  intros [Hshort Hlong].
  induction fuel as [|fuel IH]; intros i Hfuel Hin Hit.
  - cbn [topic_filter.match_loop].
    replace (i <? length fields) with false
      by (symmetry; apply Nat.ltb_ge; lia).
    cbn [negb]. eauto.
  - cbn [topic_filter.match_loop].
    destruct (i <? length fields) eqn:Ei; cbn [negb]; [|eauto].
    apply Nat.ltb_lt in Ei.
    destruct (nth_error fields i) as [fi|] eqn:Efi;
      [|apply nth_error_None in Efi; lia].
    destruct (String.eqb fi "#") eqn:Ehash; [eauto|].
    assert (Hlt : i < length topic_fields \/ (i = length topic_fields
                                              /\ i < length fields - 1)).
    { destruct (Nat.eq_dec i (length topic_fields)) as [E | E]; [|lia].
      destruct (Nat.eq_dec i (length fields - 1)) as [E1 | E1]; [|lia].
      exfalso.
      assert (Hlast : last fields EmptyString = "#"%string).
      { destruct Hshort as [H | [_ H]]; [lia | exact H]. }
      assert (Hne : fields <> []) by (destruct fields; [cbn in Ei; lia | discriminate]).
      pose proof (nth_error_last fields Hne) as Hn.
      rewrite <- E1, Efi in Hn. injection Hn as Hn.
      rewrite Hn, Hlast in Ehash. discriminate Ehash. }
    destruct Hlt as [Hlt | [E1 E2]].
    + replace (i =? length topic_fields) with false
        by (symmetry; apply Nat.eqb_neq; lia).
      cbn [andb].
      destruct (nth_error topic_fields i) as [ti|] eqn:Eti;
        [|apply nth_error_None in Eti; lia].
      destruct (negb (String.eqb fi "+")).
      * destruct (negb (String.eqb fi ti)); [eauto|]. apply IH; lia.
      * apply IH; lia.
    + replace (i =? length topic_fields) with true
        by (symmetry; apply Nat.eqb_eq; exact E1).
      replace (i <? length fields - 1) with true
        by (symmetry; apply Nat.ltb_lt; exact E2).
      cbn [andb].
      destruct (nth_error fields (i + 1)) as [fn|] eqn:Efn; [eauto|].
      apply nth_error_None in Efn. lia.
Qed.

Lemma lengths_pass_after_tests (fields topic_fields : list string) :
  (length topic_fields <? length fields)
  && negb ((length fields =? length topic_fields + 1)
           && String.eqb (last fields EmptyString) "#") = false ->
  (length fields <? length topic_fields)
  && negb (String.eqb (last fields EmptyString) "#") = false ->
  lengths_pass fields topic_fields.
Proof.
  intros H1 H2. split.
  - destruct (length topic_fields <? length fields) eqn:E.
    + right. cbn in H1. apply negb_false_iff, andb_true_iff in H1 as [Ha Hb].
      apply Nat.eqb_eq in Ha. apply String.eqb_eq in Hb. auto.
    + left. apply Nat.ltb_ge in E. exact E.
  - destruct (length fields <? length topic_fields) eqn:E.
    + right. cbn in H2. apply negb_false_iff, String.eqb_eq in H2. exact H2.
    + left. apply Nat.ltb_ge in E. exact E.
Qed.

(** X20. [topic_filter::matches] never reads outside its vectors, for any
    filter (kept whole or as any vector of fields), any topic and any
    [is_wildcard]: it always returns an answer. *)
Theorem matches_stays_in_range (f : filter_repr) (topic_name : string) :
  exists b, topic_filter.matches is_wildcard f topic_name = Some b.
Proof.
  destruct f as [filter | fields]; cbn [topic_filter.matches]; [eauto|].
  destruct (length fields =? 0) eqn:En; [eauto|].
  apply Nat.eqb_neq in En.
  rewrite split_is_split_fields.
  set (topic_fields := match topic_name with
                       | EmptyString => []
                       | _ => split_fields topic_name
                       end).
  destruct (_ && _) eqn:H1; [eauto|].
  destruct ((length fields <? length topic_fields) && _) eqn:H2; [eauto|].
  pose proof (lengths_pass_after_tests fields topic_fields H1 H2) as Hpass.
  assert (Hd : exists d,
             topic_filter.dollar_topic_with_wildcard is_wildcard fields topic_fields
             = Some d).
  { unfold topic_filter.dollar_topic_with_wildcard.
    destruct fields as [|f0 fs]; [cbn in En; lia|]. cbn [nth_error].
    destruct (is_wildcard f0 && (0 <? length topic_fields)) eqn:E; [|eauto].
    apply andb_true_iff in E as [_ E]. apply Nat.ltb_lt in E.
    destruct topic_fields as [|t0 ts]; [cbn in E; lia|]. cbn [nth_error].
    destruct t0 as [|c t0]; cbn; eauto. }
  destruct Hd as [[|] ->]; [eauto|].
  apply (match_loop_in_range fields topic_fields Hpass); lia.
Qed.

End MatchingFacts.

Section MatchingMeaning.

Variable is_wildcard : string -> bool.

Lemma skipn_nth_error (l : list string) (i : nat) (x : string) :
  nth_error l i = Some x -> skipn i l = x :: skipn (S i) l.
Proof.
  revert i. induction l as [|y l IH]; intros [|i]; cbn; try discriminate.
  - intro H. injection H as ->. reflexivity.
  - apply IH.
Qed.

Lemma match_loop_is_walk (fields topic_fields : list string) :
  lengths_pass fields topic_fields ->
  forall fuel i,
    length fields - i <= fuel -> i <= length fields ->
    i <= length topic_fields ->
    topic_filter.match_loop fuel fields topic_fields i
    = Some (field_walk (skipn i fields) (skipn i topic_fields)).
Proof.
  intros [Hshort Hlong].
  induction fuel as [|fuel IH]; intros i Hfuel Hin Hit.
  - cbn [topic_filter.match_loop].
    replace (i <? length fields) with false
      by (symmetry; apply Nat.ltb_ge; lia).
    cbn [negb]. rewrite skipn_all2 by lia. reflexivity.
  - cbn [topic_filter.match_loop].
    destruct (i <? length fields) eqn:Ei; cbn [negb].
    2:{ apply Nat.ltb_ge in Ei. rewrite (skipn_all2 fields) by lia. reflexivity. }
    apply Nat.ltb_lt in Ei.
    destruct (nth_error fields i) as [fi|] eqn:Efi;
      [|apply nth_error_None in Efi; lia].
    rewrite (skipn_nth_error fields i fi Efi). cbn [field_walk].
    destruct (String.eqb fi "#") eqn:Ehash; [reflexivity|].
    assert (Hlt : i < length topic_fields).
    { destruct (Nat.eq_dec i (length topic_fields)) as [E | E]; [|lia].
      exfalso.
      assert (Hlast : length fields = length topic_fields + 1
                      /\ last fields EmptyString = "#"%string).
      { destruct Hshort as [H | H]; [lia | exact H]. }
      destruct Hlast as [Hlen Hlast].
      assert (Hne : fields <> [])
        by (destruct fields; [cbn in Ei; lia | discriminate]).
      pose proof (nth_error_last fields Hne) as Hn.
      replace (length fields - 1) with i in Hn by lia.
      rewrite Efi in Hn. injection Hn as Hn.
      rewrite Hn, Hlast in Ehash. discriminate Ehash. }
    replace (i =? length topic_fields) with false
      by (symmetry; apply Nat.eqb_neq; lia).
    cbn [andb].
    destruct (nth_error topic_fields i) as [ti|] eqn:Eti;
      [|apply nth_error_None in Eti; lia].
    rewrite (skipn_nth_error topic_fields i ti Eti).
    rewrite Nat.add_1_r.
    destruct (String.eqb fi "+") eqn:Eplus; cbn [negb orb andb].
    + apply IH; lia.
    + destruct (String.eqb fi ti) eqn:Eeq; cbn [negb andb]; [apply IH; lia|].
      reflexivity.
Qed.

Lemma lengths_pass_b_cons (f t : string) (fields topic_fields : list string) :
  fields <> [] ->
  lengths_pass_b (f :: fields) (t :: topic_fields)
  = lengths_pass_b fields topic_fields.
Proof.
  intro Hne. unfold lengths_pass_b. cbn [length].
  replace (last (f :: fields) EmptyString) with (last fields EmptyString)
    by (destruct fields; [contradiction | reflexivity]).
  change (S (length topic_fields) <? S (length fields))
    with (length topic_fields <? length fields).
  change (S (length fields) <? S (length topic_fields))
    with (length fields <? length topic_fields).
  change (S (length fields) =? S (length topic_fields) + 1)
    with (length fields =? length topic_fields + 1).
  reflexivity.
Qed.

Lemma field_walk_step (f t : string) (fields topic_fields : list string) :
  String.eqb f "#" = false ->
  field_walk (f :: fields) (t :: topic_fields)
  = (String.eqb f "+" || String.eqb f t) && field_walk fields topic_fields.
Proof. intro H. cbn [field_walk]. rewrite H. reflexivity. Qed.

Lemma mqtt_match_step (f t : string) (fields topic_fields : list string) :
  String.eqb f "#" = false ->
  mqtt_match (f :: fields) (t :: topic_fields)
  = (String.eqb f "+" || String.eqb f t) && mqtt_match fields topic_fields.
Proof. intro H. cbn [mqtt_match]. rewrite H. reflexivity. Qed.

Lemma walk_is_mqtt_match (fields : list string) :
  fields <> [] -> hash_only_last fields = true ->
  forall topic_fields,
    lengths_pass_b fields topic_fields && field_walk fields topic_fields
    = mqtt_match fields topic_fields.
Proof.
  induction fields as [|f fields IH]; [contradiction|].
  intros _ Hvalid topic_fields.
  destruct fields as [|f2 fields].
  - unfold lengths_pass_b. cbn [length last field_walk mqtt_match].
    destruct (String.eqb f "#") eqn:Eh; cbn [andb].
    + destruct topic_fields as [|t [|t2 ts]]; reflexivity.
    + destruct topic_fields as [|t [|t2 ts]]; cbn;
        rewrite ?andb_true_r, ?andb_false_r; reflexivity.
  - cbn [hash_only_last] in Hvalid.
    apply andb_true_iff in Hvalid as [Hf Hvalid].
    apply negb_true_iff in Hf.
    destruct topic_fields as [|t ts].
    + cbn [mqtt_match field_walk]. rewrite Hf. cbn.
      rewrite ?andb_false_r. reflexivity.
    + rewrite lengths_pass_b_cons by discriminate.
      rewrite field_walk_step, mqtt_match_step by exact Hf.
      rewrite <- (IH ltac:(discriminate) Hvalid ts).
      destruct (lengths_pass_b (f2 :: fields) ts);
        destruct (String.eqb f "+" || String.eqb f t); reflexivity.
Qed.

Lemma lengths_pass_b_true (fields topic_fields : list string) :
  lengths_pass_b fields topic_fields = true -> lengths_pass fields topic_fields.
Proof.
  unfold lengths_pass_b. intro H. apply andb_true_iff in H as [H1 H2].
  apply negb_true_iff in H1. apply negb_true_iff in H2.
  apply lengths_pass_after_tests; assumption.
Qed.

Lemma dollar_test (f0 : string) (fields : list string) (topic_name : string) :
  topic_filter.dollar_topic_with_wildcard is_wildcard (f0 :: fields)
    (match topic_name with
     | EmptyString => []
     | _ => split_fields topic_name
     end)
  = Some (is_wildcard f0 && starts_with_dollar topic_name).
Proof.
  unfold topic_filter.dollar_topic_with_wildcard. cbn [nth_error].
  destruct (is_wildcard f0); cbn [andb]; [|reflexivity].
  destruct topic_name as [|c s]; [reflexivity|].
  cbn [split_fields starts_with_dollar].
  destruct (Ascii.eqb c "/") eqn:E.
  - apply Ascii.eqb_eq in E. subst c. reflexivity.
  - pose proof (split_fields_nonempty s) as Hne.
    destruct (split_fields s) as [|g gs]; [contradiction|]. reflexivity.
Qed.

(** X21. For a filter whose fields hold '#' at most in the last place,
    [topic_filter::matches] answers as the MQTT matching rules say, on the
    fields of the topic: '+' stands for exactly one level, a final '#' for
    all remaining levels including none, every other field for itself;
    and no topic that starts with '$' matches when the first field of the
    filter is a wildcard. *)
Theorem matches_is_mqtt_match (fields : list string) (topic_name : string) :
  fields <> [] -> hash_only_last fields = true ->
  exists topic_fields,
    topic.split topic_name = Some topic_fields
    /\ topic_filter.matches is_wildcard (by_fields fields) topic_name
       = Some (mqtt_match fields topic_fields
               && negb (is_wildcard (hd EmptyString fields)
                        && starts_with_dollar topic_name)).
Proof.
  intros Hne Hvalid. rewrite split_is_split_fields.
  eexists. split; [reflexivity|].
  cbn [topic_filter.matches]. rewrite split_is_split_fields.
  set (topic_fields := match topic_name with
                       | EmptyString => []
                       | _ => split_fields topic_name
                       end).
  rewrite <- (walk_is_mqtt_match fields Hne Hvalid topic_fields).
  destruct fields as [|f0 fs]; [contradiction|].
  replace (length (f0 :: fs) =? 0) with false by reflexivity.
  cbn [hd].
  pose proof (dollar_test f0 fs topic_name) as Hd. fold topic_fields in Hd.
  rewrite Hd.
  destruct (lengths_pass_b (f0 :: fs) topic_fields) eqn:Hp.
  - pose proof Hp as Hb. unfold lengths_pass_b in Hb.
    apply andb_true_iff in Hb as [H1 H2].
    apply negb_true_iff in H1. apply negb_true_iff in H2.
    rewrite H1, H2. cbn [andb].
    destruct (is_wildcard f0 && starts_with_dollar topic_name).
    + rewrite andb_false_r. reflexivity.
    + rewrite andb_true_r.
      apply (match_loop_is_walk (f0 :: fs) topic_fields
               (lengths_pass_b_true _ _ Hp)); lia.
  - cbn [andb]. unfold lengths_pass_b in Hp.
    apply andb_false_iff in Hp as [H | H]; apply negb_false_iff in H.
    + rewrite H. reflexivity.
    + rewrite H.
      destruct ((length topic_fields <? length (f0 :: fs)) && _); reflexivity.
Qed.

End MatchingMeaning.

Lemma matches_is_mqtt_match_witness :
  let fields := ["sensors"%string; "+"%string; "#"%string] in
  fields <> [] /\ hash_only_last fields = true
  /\ exists topic_fields,
       topic.split "sensors/room1/temp/celsius" = Some topic_fields
       /\ topic_filter.matches wildcard_field (by_fields fields)
            "sensors/room1/temp/celsius"
          = Some (mqtt_match fields topic_fields
                  && negb (wildcard_field (hd EmptyString fields)
                           && starts_with_dollar "sensors/room1/temp/celsius")).
Proof.
  intro fields.
  assert (Hne : fields <> []) by discriminate.
  assert (Hv : hash_only_last fields = true) by reflexivity.
  split; [exact Hne|]. split; [exact Hv|].
  exact (matches_is_mqtt_match wildcard_field fields
           "sensors/room1/temp/celsius" Hne Hv).
Defined.

(** The filters of the monitor and some topics, run on the code. *)
Example matching_examples :
  let m filter topic_name :=
    match topic_filter.make filter with
    | Some f => topic_filter.matches wildcard_field f topic_name
    | None => None
    end in
  m "$SYS/brokers/+/stats/connections/count"%string
    "$SYS/brokers/emqx@127.0.0.1/stats/connections/count"%string = Some true
  /\ m "#"%string "test/latency"%string = Some true
  /\ m "#"%string "$SYS/brokers"%string = Some false
  /\ m "+/brokers"%string "$SYS/brokers"%string = Some false
  /\ m "test/#"%string "test"%string = Some true
  /\ m "test/+"%string "test"%string = Some false
  /\ m "test/+"%string "test/"%string = Some true
  /\ m "test/latency"%string "test/latency"%string = Some true
  /\ m "test/latency"%string "test/bandwidth"%string = Some false.
Proof. cbn zeta. repeat split; vm_compute; reflexivity. Qed.

(** * The fall-through of a broker switch *)

Lemma available_after_mark (u : string) (m : BrokerListManager) :
  NoDup (get_broker_uris m) ->
  available_uris (mark_broker_unavailable u m)
  = filter (fun v => negb (String.eqb v u)) (available_uris m).
Proof.
  unfold available_uris, get_broker_uris, get_all_brokers,
    mark_broker_unavailable, with_brokers. cbn [brokers_].
  induction (brokers_ m) as [|b bs IH]; intro Hnd; [reflexivity|].
  inversion Hnd as [|x xs Hx Hxs]; subst.
  cbn [update_first]. unfold has_uri at 1.
  destruct (String.eqb (uri b) u) eqn:E.
  - apply String.eqb_eq in E. subst u. cbn [filter is_available set_score set_available].
    assert (Hnot : ~ In (uri b) (map uri (filter is_available bs))).
    { intro Hin. apply Hx. apply in_map_iff in Hin as (y & Hy & Hin).
      apply filter_In in Hin as [Hin _]. rewrite <- Hy. apply in_map, Hin. }
    destruct (is_available b); cbn [map filter].
    + rewrite String.eqb_refl. cbn [negb].
      symmetry. apply filter_other_uris_id, Hnot.
    + symmetry. apply filter_other_uris_id, Hnot.
  - cbn [filter]. destruct (is_available b); cbn [map filter].
    + rewrite E. cbn [negb]. f_equal. apply IH, Hxs.
    + apply IH, Hxs.
Qed.

Lemma filter_out_middle (pre post : list string) (x : string) :
  NoDup (pre ++ x :: post) ->
  filter (fun v => negb (String.eqb v x)) (pre ++ x :: post) = pre ++ post.
Proof.
  intro Hnd. apply NoDup_remove in Hnd as [_ Hnot].
  rewrite filter_app. cbn [filter]. rewrite String.eqb_refl. cbn [negb].
  rewrite !filter_other_uris_id; [reflexivity | |];
    intro Hin; apply Hnot, in_or_app; auto.
Qed.

Lemma available_NoDup (m : BrokerListManager) :
  NoDup (get_broker_uris m) -> NoDup (available_uris m).
Proof.
  unfold available_uris, get_broker_uris, get_all_brokers.
  induction (brokers_ m) as [|b bs IH]; intro Hnd; [constructor|].
  inversion Hnd as [|x xs Hx Hxs]; subst. cbn [filter].
  destruct (is_available b); [|auto]. cbn [map]. constructor; [|auto].
  intro Hin. apply Hx. apply in_map_iff in Hin as (y & Hy & Hin).
  apply filter_In in Hin as [Hin _]. rewrite <- Hy. apply in_map, Hin.
Qed.

Section FallThrough.

Variable mqtt_connect : string -> connect_result.
Variable mqtt_publish : list (string * publish_args) -> string -> publish_args -> bool.

Hypothesis no_broker_accepts : forall v, mqtt_connect v <> connect_succeeds.

Lemma handle_connection_failure_skips (fuel : nat) :
  forall (kept_before : list string) (failed_uri : string)
         (left : list string) (s : SelfAdaptiveMqttManager),
    length left < fuel ->
    NoDup (get_broker_uris (broker_manager_ s)) ->
    available_uris (broker_manager_ s) = kept_before ++ failed_uri :: left ->
    current_broker_try_index_ s = length kept_before + 1 ->
    exists s',
      handle_connection_failure mqtt_connect mqtt_publish fuel failed_uri s = Ret s'
      /\ available_uris (broker_manager_ s') = kept_before ++ every_other left.
Proof.
  induction fuel as [|fuel IH]; intros kept x left s Hfuel Hnd Hav Hidx; [lia|].
  cbn [handle_connection_failure].
  cbn [broker_manager_ set_broker_manager current_broker_try_index_].
  set (m1 := mark_broker_unavailable x (broker_manager_ s)).
  assert (Hav1 : available_uris m1 = kept ++ left).
  { unfold m1. rewrite (available_after_mark x _ Hnd), Hav.
    apply filter_out_middle. rewrite <- Hav. apply available_NoDup, Hnd. }
  assert (Hnd1 : NoDup (get_broker_uris m1)).
  { unfold m1. rewrite mark_broker_unavailable_uris. exact Hnd. }
  rewrite Hav1, Hidx.
  destruct left as [|r0 [|r1 left]].
  - rewrite app_nil_r in *. cbn [every_other].
    destruct kept as [|k kept].
    + eexists. split; [reflexivity|]. exact Hav1.
    + replace (length (k :: kept) + 1 <? length (k :: kept)) with false
        by (symmetry; apply Nat.ltb_ge; lia).
      eexists. split; [reflexivity|].
      cbn [broker_manager_ set_is_connecting set_try_index set_broker_manager].
      rewrite app_nil_r. exact Hav1.
  - cbn [every_other].
    destruct (kept ++ [r0]) as [|k ks] eqn:Ek; [destruct kept; discriminate Ek|].
    rewrite <- Ek.
    replace (length kept + 1 <? length (kept ++ [r0])) with false
      by (symmetry; apply Nat.ltb_ge; rewrite length_app; cbn; lia).
    eexists. split; [reflexivity|].
    cbn [broker_manager_ set_is_connecting set_try_index set_broker_manager].
    congruence.
  - destruct (kept ++ r0 :: r1 :: left) as [|k ks] eqn:Ek;
      [destruct kept; discriminate Ek|].
    rewrite <- Ek. rewrite <- Ek in Hav1.
    replace (length kept + 1 <? length (kept ++ r0 :: r1 :: left)) with true
      by (symmetry; apply Nat.ltb_lt; rewrite length_app; cbn; lia).
    assert (Hnth : nth (length kept + 1) (kept ++ r0 :: r1 :: left) ""%string = r1).
    { rewrite app_nth2 by lia.
      replace (length kept + 1 - length kept) with 1 by lia. reflexivity. }
    rewrite Hnth.
    destruct (try_connect_failure mqtt_connect r1 (set_broker_manager m1 s)
                (no_broker_accepts r1)) as [c ->].
    destruct (IH (kept ++ [r0]) r1 left
                (set_try_index
                   (S (current_broker_try_index_
                         (set_client c (set_broker_manager m1 s))))
                   (set_client c (set_broker_manager m1 s))))
      as (s' & Hrun & Hav').
    + cbn in Hfuel. lia.
    + exact Hnd1.
    + cbn [broker_manager_ set_try_index set_client set_broker_manager].
      rewrite Hav1, <- app_assoc. reflexivity.
    + cbn [current_broker_try_index_ set_try_index set_client set_broker_manager].
      rewrite Hidx, length_app. cbn. lia.
    + exists s'. split; [exact Hrun|].
      rewrite Hav', <- app_assoc. reflexivity.
Qed.

(** X22. When no broker accepts the connection, a broker switch that
    starts at try index 0 tries only every other available broker: the
    brokers at the first, third, fifth, ... place of the available list are
    tried and marked unavailable, those at the second, fourth, ... place
    are never tried and are the ones still available afterwards. *)
Theorem failed_switch_skips_every_other_broker (s : SelfAdaptiveMqttManager) :
  is_connecting_ s = false ->
  current_broker_try_index_ s = 0 ->
  NoDup (get_broker_uris (broker_manager_ s)) ->
  exists s',
    switch_to_best_broker mqtt_connect mqtt_publish s = Ret s'
    /\ available_uris (broker_manager_ s')
       = skipped_places (available_uris (broker_manager_ s)).
Proof.
  intros Hg Hidx Hnd. unfold switch_to_best_broker. rewrite Hg.
  cbn [broker_manager_ destroy_client set_client set_is_connecting
       current_broker_try_index_].
  destruct (available_uris (broker_manager_ s)) as [|l0 left] eqn:Hav.
  - eexists. split; [reflexivity|]. cbn. exact Hav.
  - rewrite Hidx. cbn [length Nat.leb nth].
    set (s1 := destroy_client (set_is_connecting true s)).
    change (current_broker_try_index_ s1) with (current_broker_try_index_ s).
    rewrite Hidx.
    destruct (try_connect_failure mqtt_connect l0 s1 (no_broker_accepts l0))
      as [c ->].
    destruct (handle_connection_failure_skips
                (failure_fuel (set_client c s1)) [] l0 left
                (set_try_index (S (current_broker_try_index_ (set_client c s1)))
                   (set_client c s1)))
      as (s4 & Hrun & Hav4).
    + unfold failure_fuel. cbn.
      pose proof (available_uris_length (broker_manager_ s)) as Hlen.
      rewrite Hav in Hlen. cbn in Hlen. lia.
    + exact Hnd.
    + exact Hav.
    + cbn. rewrite Hidx. reflexivity.
    + rewrite Hrun. cbn [bind]. eexists. split; [reflexivity|].
      cbn. exact Hav4.
Qed.

End FallThrough.

Lemma failed_switch_skips_every_other_broker_witness :
  let s := set_brokers [("A"%string, 0); ("B"%string, 1); ("C"%string, 2);
                        ("D"%string, 3); ("E"%string, 4)]
             (new_SelfAdaptiveMqttManager "sensor") in
  (forall v, no_broker_connects v <> connect_succeeds)
  /\ is_connecting_ s = false /\ current_broker_try_index_ s = 0
  /\ NoDup (get_broker_uris (broker_manager_ s))
  /\ skipped_places (available_uris (broker_manager_ s)) = ["B"%string; "D"%string]
  /\ exists s',
       switch_to_best_broker no_broker_connects accepts_every_publish s = Ret s'
       /\ available_uris (broker_manager_ s')
          = skipped_places (available_uris (broker_manager_ s)).
Proof.
  intro s.
  assert (Hnone : forall v, no_broker_connects v <> connect_succeeds)
    by (intro v; discriminate).
  assert (Hnd : NoDup (get_broker_uris (broker_manager_ s))).
  { apply reachable_uris_NoDup. repeat constructor. }
  split; [exact Hnone|]. split; [reflexivity|]. split; [reflexivity|].
  split; [exact Hnd|]. split; [reflexivity|].
  exact (failed_switch_skips_every_other_broker no_broker_connects
           accepts_every_publish Hnone s eq_refl eq_refl Hnd).
Defined.

Lemma only_publish_can_dereference_null_witness :
  let s := mkManager None registry_ABC true false [] 0 [] in
  (is_connected_ s = true /\ client_ s = None)
  /\ publish accepts_every_publish "t" "p" 1%Z false 4 s = NullClient.
Proof.
  intro s.
  assert (H : is_connected_ s = true /\ client_ s = None) by (split; reflexivity).
  split; [exact H|].
  destruct (only_publish_can_dereference_null every_broker_connects
              accepts_every_publish s) as (_ & _ & _ & _ & _ & _ & _ & Hp).
  exact (proj2 (proj1 (Hp "t"%string "p"%string 1%Z false 4)) H).
Defined.

Lemma split_joins_back_witness :
  exists fields,
    topic.split "test//latency/" = Some fields
    /\ (fields = [] <-> "test//latency/"%string = EmptyString)
    /\ Forall (fun f => string_find "/" f 0 = None) fields
    /\ String.concat "/" fields = "test//latency/"%string.
Proof. exact (split_joins_back "test//latency/"). Defined.

(** [topic::split] on strings with empty levels. *)
Example split_examples :
  topic.split "test//latency/" = Some ["test"%string; ""%string; "latency"%string; ""%string]
  /\ topic.split "/" = Some [""%string; ""%string]
  /\ topic.split "" = Some []
  /\ topic.split "test" = Some ["test"%string].
Proof. repeat split. Qed.
